(** * EC2 open-port checker (AWS Config rule): model and properties

    A shallow embedding of [ec2-port-checker.py].  The Python functions are
    transcribed one by one; exceptions are values of [result], calls to the
    AWS clients are recorded in a log kept next to the result, and the
    answers of the EC2 directory come from an explicit snapshot. *)

From Stdlib Require Import String Ascii ZArith List Bool Lia Permutation.
Import ListNotations.
Local Open Scope string_scope.
Local Open Scope list_scope.
Local Open Scope Z_scope.

(** ** Python values and builtins used by the script *)

Module Py.

(** The exceptions that the script can run into. *)
Inductive exception : Type :=
| TypeError
| ValueError
| KeyError
| IndexError
| AttributeError
| ParamValidationError.

Inductive result (A : Type) : Type :=
| Ok (a : A)
| Raise (e : exception).
Arguments Ok {A} a.
Arguments Raise {A} e.

Definition rbind {A B : Type} (r : result A) (k : A -> result B) : result B :=
  match r with
  | Ok a => k a
  | Raise e => Raise e
  end.

(** [for x in xs: acc = body acc x], where the body may raise. *)
Fixpoint rfold {S X : Type} (body : S -> X -> result S) (xs : list X) (acc : S)
  : result S :=
  match xs with
  | [] => Ok acc
  | x :: rest => rbind (body acc x) (rfold body rest)
  end.

(** [range(a, b)] *)
Definition range (a b : Z) : list Z :=
  map (fun i => a + Z.of_nat i) (seq 0 (Z.to_nat (b - a))).

(** [needle in hay] for two strings: substring test. *)
Fixpoint contains (needle hay : string) : bool :=
  String.prefix needle hay ||
  match hay with
  | EmptyString => false
  | String _ rest => contains needle rest
  end.

(** [s.split(sep)] for a one-character separator. *)
Fixpoint split (sep : ascii) (s : string) : list string :=
  match s with
  | EmptyString => [EmptyString]
  | String c rest =>
      if Ascii.eqb c sep then EmptyString :: split sep rest
      else match split sep rest with
           | part :: parts => String c part :: parts
           | [] => [String c EmptyString]
           end
  end.

(** [sep.join(parts)] for strings. *)
Fixpoint join (sep : string) (parts : list string) : string :=
  match parts with
  | [] => EmptyString
  | [p] => p
  | p :: rest => (p ++ sep ++ join sep rest)%string
  end.

(** [int(s)] in base ten, for the text of a JSON value (a [unicode] whose
    characters are ASCII here): blanks around the literal are dropped, one
    sign is allowed, at least one decimal digit is required and nothing else
    may follow.  The blanks are the space, the characters 9 to 13 and the
    separators 28 to 31. *)
Definition is_space (c : ascii) : bool :=
  let n := N_of_ascii c in
  (N.eqb n 32 || (N.leb 9 n && N.leb n 13) || (N.leb 28 n && N.leb n 31))%bool.

Definition digit (c : ascii) : option Z :=
  let n := Z.of_N (N_of_ascii c) in
  if (48 <=? n) && (n <=? 57) then Some (n - 48) else None.

Fixpoint lstrip (s : string) : string :=
  match s with
  | String c rest => if is_space c then lstrip rest else s
  | EmptyString => s
  end.

(** Reads digits as long as there are some; gives the value read and what is
    left of the string. *)
Fixpoint digits (acc : Z) (s : string) : Z * string :=
  match s with
  | String c rest =>
      match digit c with
      | Some d => digits (10 * acc + d) rest
      | None => (acc, s)
      end
  | EmptyString => (acc, s)
  end.

Definition unsigned (s : string) : option Z :=
  match s with
  | String c _ =>
      match digit c with
      | Some _ =>
          let '(n, rest) := digits 0 s in
          match lstrip rest with
          | EmptyString => Some n
          | String _ _ => None
          end
      | None => None
      end
  | EmptyString => None
  end.

Definition int (s : string) : result Z :=
  let body := lstrip s in
  let parsed :=
    match body with
    | String "-"%char rest => option_map Z.opp (unsigned rest)
    | String "+"%char rest => unsigned rest
    | _ => unsigned body
    end in
  match parsed with
  | Some n => Ok n
  | None => Raise ValueError
  end.

End Py.

Import Py.

Notation "x <- r ;;; k" := (rbind r (fun x => k))
  (at level 61, r at next level, right associativity).

(** ** Dicts, values and collections *)

(** A dict with string keys, in iteration order.  [dict_set] is [d[k] = v]:
    an existing key keeps its place, a new key goes last. *)
Definition dict (V : Type) : Type := list (string * V).

Fixpoint dict_get {V : Type} (k : string) (d : dict V) : option V :=
  match d with
  | [] => None
  | (k', v) :: rest => if String.eqb k k' then Some v else dict_get k rest
  end.

Fixpoint dict_set {V : Type} (k : string) (v : V) (d : dict V) : dict V :=
  match d with
  | [] => [(k, v)]
  | (k', v') :: rest =>
      if String.eqb k k' then (k, v) :: rest else (k', v') :: dict_set k v rest
  end.

Definition keys {V : Type} (d : dict V) : list string := map fst d.

(** [d[k]] *)
Definition getitem {V : Type} (d : dict V) (k : string) : result V :=
  match dict_get k d with
  | Some v => Ok v
  | None => Raise KeyError
  end.

(** ** The shapes of the EC2 answers *)

(** One entry of [instance.security_groups]. *)
Record group : Type := { GroupName : string; GroupId : string }.

Record instance : Type := { InstanceId : string }.
Record reservation : Type := { Instances : list instance }.

Record ip_range : Type := { CidrIp : string }.

(** One entry of [ip_permissions]; the entries considered carry both ports,
    as the ingress rules of the specification do. *)
Record permission : Type :=
  { FromPort : Z; ToPort : Z; IpRanges : list ip_range }.

(** What the script stores in its scope: a group identifier (a str) or a
    whole group entry (a dict). *)
Inductive value : Type :=
| Str (s : string)
| Dict (g : group).

Definition group_eqb (g h : group) : bool :=
  String.eqb (GroupName g) (GroupName h) && String.eqb (GroupId g) (GroupId h).

Definition value_eqb (v w : value) : bool :=
  match v, w with
  | Str s, Str t => String.eqb s t
  | Dict g, Dict h => group_eqb g h
  | _, _ => false
  end.

(** [hash(v)]: a dict is not hashable. *)
Definition hash (v : value) : result unit :=
  match v with
  | Str _ => Ok tt
  | Dict _ => Raise TypeError
  end.

(** A list or a set of values.  A set keeps its elements once; it is
    visited in the order in which they were added, which makes the order of
    a visit depend on the order of the lookups.  The statements below that
    could depend on an order are made up to permutation. *)
Inductive collection : Type :=
| PyList (elements : list value)
| PySet (elements : list value).

Definition items (c : collection) : list value :=
  match c with
  | PyList l => l
  | PySet l => l
  end.

Definition mem (x : value) (l : list value) : bool := existsb (value_eqb x) l.

Definition insert (x : value) (s : list value) : list value :=
  if mem x s then s else s ++ [x].

(** [s.add(x)] *)
Definition set_add (s : list value) (x : value) : result (list value) :=
  _ <- hash x ;;; Ok (insert x s).

(** [set(l)] *)
Definition set_of (l : list value) : result (list value) :=
  rfold set_add l [].

(** [c.append(x)] *)
Definition append (c : collection) (x : value) : result collection :=
  match c with
  | PyList l => Ok (PyList (l ++ [x]))
  | PySet _ => Raise AttributeError
  end.

(** [x in c] *)
Definition member (x : value) (c : collection) : result bool :=
  match c with
  | PyList l => Ok (mem x l)
  | PySet s => _ <- hash x ;;; Ok (mem x s)
  end.

(** [sep.join(l)]: every element has to be a str. *)
Fixpoint strings (l : list value) : result (list string) :=
  match l with
  | [] => Ok []
  | Str s :: rest => ss <- strings rest ;;; Ok (s :: ss)
  | Dict _ :: _ => Raise TypeError
  end.

Definition str_join (sep : string) (l : list value) : result string :=
  ss <- strings l ;;; Ok (join sep ss).

(** ** The account snapshot and the calls made to AWS *)

(** The answers of the EC2 directory for one unchanged account. *)
Record directory : Type := {
  (** [describe_instances] filtered on [instance.group-id]: ['Reservations'] *)
  describe_instances : string -> list reservation;
  (** [ec2.Instance(id).security_groups] *)
  security_groups : string -> list group;
  (** [ec2.SecurityGroup(id).ip_permissions] *)
  ip_permissions : string -> option (list permission)
}.

(** A record handed to [put_evaluations].  The script builds two shapes:
    the five keys of an evaluation of an instance, and the two lower-case
    keys of the notice that the rule does not apply. *)
Inductive evaluation : Type :=
| Evaluation (ComplianceResourceType ComplianceResourceId ComplianceType
              Annotation OrderingTimestamp : string)
| Notice (compliance_type annotation : string).

Inductive call : Type :=
| DescribeInstances (secGroupId : string)
| InstanceSecurityGroups (instanceId : string)
| SecurityGroupIpPermissions (secGroup : value)
| PrintJson (outputEvaluation : list evaluation)
| PutEvaluations (Evaluations : list evaluation) (ResultToken : string).

(** A computation: the calls it made, in order, and how it ended. *)
Definition M (A : Type) : Type := (list call * result A)%type.

Definition ret {A : Type} (a : A) : M A := ([], Ok a).
Definition lift {A : Type} (r : result A) : M A := ([], r).
Definition request {A : Type} (c : call) (answer : result A) : M A :=
  ([c], answer).

Definition bind {A B : Type} (m : M A) (k : A -> M B) : M B :=
  match m with
  | (log, Ok a) => let '(log', r) := k a in (log ++ log', r)
  | (log, Raise e) => (log, Raise e)
  end.

Notation "x <- m ;; k" := (bind m (fun x => k))
  (at level 61, m at next level, right associativity).

Fixpoint foldM {S X : Type} (body : S -> X -> M S) (xs : list X) (acc : S)
  : M S :=
  match xs with
  | [] => ret acc
  | x :: rest => acc' <- body acc x ;; foldM body rest acc'
  end.

Definition calls {A : Type} (m : M A) : list call := fst m.
Definition outcome {A : Type} (m : M A) : result A := snd m.

(** ** The script *)

(** The triggering configuration item and the invocation, as decoded from
    JSON. *)
Record configuration_item : Type := {
  resourceType : string;
  configuration : dict string;
  configurationItemCaptureTime : string
}.

Record invoking_event : Type := { configurationItem : configuration_item }.

Record event : Type := {
  invokingEvent : invoking_event;
  ruleParameters : dict string;
  resultToken : option string
}.

Record scope : Type := {
  instancesToEvaluate : dict collection;
  secGroupsToCheck : collection
}.

(** [l[i]] *)
Definition index {A : Type} (l : list A) (i : nat) : result A :=
  match nth_error l i with
  | Some a => Ok a
  | None => Raise IndexError
  end.

Definition instancesForSecurityGroupId (ec2 : directory) (secGroupId : string)
  : M (list reservation) :=
  request (DescribeInstances secGroupId) (Ok (describe_instances ec2 secGroupId)).

Definition secGroupsForInstanceId (ec2 : directory) (instanceId : string)
  : M (list group) :=
  request (InstanceSecurityGroups instanceId) (Ok (security_groups ec2 instanceId)).

(** [ec2.SecurityGroup(secGroup).ip_permissions]; the identifier has to be a
    str for the request to be built. *)
Definition securityGroupIpPermissions (ec2 : directory) (secGroup : value)
  : M (option (list permission)) :=
  request (SecurityGroupIpPermissions secGroup)
    match secGroup with
    | Str id => Ok (ip_permissions ec2 id)
    | Dict _ => Raise ParamValidationError
    end.

Definition determineEvaluationScopeFromTriggerSecGroup
  (ec2 : directory) (triggerSecGroup : string) : M scope :=
  reservations <- instancesForSecurityGroupId ec2 triggerSecGroup ;;
  found <-
    foldM (fun found reservation =>
      foldM (fun '(instancesToEvaluate, secGroupsToCheck) instance =>
        let instancesToEvaluate :=
          dict_set (InstanceId instance) (PyList []) instancesToEvaluate in
        groups <- secGroupsForInstanceId ec2 (InstanceId instance) ;;
        lift (rfold (fun '(instancesToEvaluate, secGroupsToCheck) group =>
                attached <- getitem instancesToEvaluate (InstanceId instance) ;;;
                attached <- append attached (Str (GroupId group)) ;;;
                secGroupsToCheck <- set_add secGroupsToCheck (Str (GroupId group)) ;;;
                Ok (dict_set (InstanceId instance) attached instancesToEvaluate,
                    secGroupsToCheck))
              groups (instancesToEvaluate, secGroupsToCheck)))
        (Instances reservation) found)
      reservations ([], []) ;;
  ret {| instancesToEvaluate := fst found; secGroupsToCheck := PySet (snd found) |}.

Definition find_exposed_ports (ip_permissions : option (list permission))
  : list Z :=
  fold_left (fun exposed_ports permission =>
    fold_left (fun exposed_ports ip =>
      if contains "0.0.0.0/0" (CidrIp ip)
      then exposed_ports ++ range (FromPort permission) (ToPort permission + 1)
      else exposed_ports)
      (IpRanges permission) exposed_ports)
    (match ip_permissions with Some l => l | None => [] end) [].

Definition expand_range (ports : string) : result (list Z) :=
  if contains "-" ports then
    lower <- index (split "-" ports) 0 ;;;
    lower <- int lower ;;;
    upper <- index (split "-" ports) 1 ;;;
    upper <- int upper ;;;
    Ok (range lower (upper + 1))
  else
    port <- int ports ;;;
    Ok [port].

(** The loop of [find_violation] over the keys still to visit; it returns at
    the first forbidden port found among the exposed ones. *)
Fixpoint find_violation_loop (exposed_ports : list Z)
  (forbidden_ports : dict string) (remaining : list string) : result bool :=
  match remaining with
  | [] => Ok false
  | forbidden :: rest =>
      spec <- getitem forbidden_ports forbidden ;;;
      ports <- expand_range spec ;;;
      if existsb (fun port => existsb (Z.eqb port) exposed_ports) ports
      then Ok true
      else find_violation_loop exposed_ports forbidden_ports rest
  end.

Definition find_violation (exposed_ports : list Z)
  (forbidden_ports : dict string) : result bool :=
  find_violation_loop exposed_ports forbidden_ports (keys forbidden_ports).

Definition getViolationGroups (ec2 : directory) (secGroupSet : collection)
  (forbiddenPorts : dict string) : M (list value) :=
  foldM (fun violations secGroup =>
    permissions <- securityGroupIpPermissions ec2 secGroup ;;
    let exposed_ports := find_exposed_ports permissions in
    violated <- lift (find_violation exposed_ports forbiddenPorts) ;;
    ret (if violated : bool then violations ++ [secGroup] else violations))
    (items secGroupSet) [].

(** Lines 134 to 145 of [evaluate_compliance]: the scope of the trigger,
    [None] when the function returns [False] at once. *)
Definition trigger_scope (ec2 : directory)
  (configuration_item : configuration_item) : M (option scope) :=
  if String.eqb (resourceType configuration_item) "AWS::EC2::SecurityGroup" then
    triggerSecGroupId <- lift (getitem (configuration configuration_item) "groupId") ;;
    scope <- determineEvaluationScopeFromTriggerSecGroup ec2 triggerSecGroupId ;;
    ret (Some scope)
  else if String.eqb (resourceType configuration_item) "AWS::EC2::Instance" then
    instanceId <- lift (getitem (configuration configuration_item) "instanceId") ;;
    groups <- secGroupsForInstanceId ec2 instanceId ;;
    groupSet <- lift (set_of (map Dict groups)) ;;
    ret (Some {| secGroupsToCheck := PyList (map Dict groups);
                 instancesToEvaluate := [(instanceId, PySet groupSet)] |})
  else
    ret None.

(** Lines 150 to 156: the violating groups of every instance of the scope. *)
Definition violation_instances (instancesToEvaluate : dict collection)
  (violationGroups : list value) : result (dict (list value)) :=
  rfold (fun violationInstances instance =>
    rfold (fun violationInstances group =>
      attached <- getitem instancesToEvaluate instance ;;;
      found <- member group attached ;;;
      if found : bool then
        listed <- getitem violationInstances instance ;;;
        Ok (dict_set instance (listed ++ [group]) violationInstances)
      else Ok violationInstances)
      violationGroups (dict_set instance [] violationInstances))
    (keys instancesToEvaluate) [].

(** [None] stands for the [False] of the last branch. *)
Definition evaluate_compliance (ec2 : directory)
  (configuration_item : configuration_item) (rule_parameters : dict string)
  : M (option (dict (list value))) :=
  found <- trigger_scope ec2 configuration_item ;;
  match found with
  | None => ret None
  | Some scope =>
      let instancesToEvaluate := instancesToEvaluate scope in
      violationGroups <-
        getViolationGroups ec2 (secGroupsToCheck scope) rule_parameters ;;
      violationInstances <-
        lift (violation_instances instancesToEvaluate violationGroups) ;;
      ret (Some violationInstances)
  end.

(** Lines 172 to 200 of [lambda_handler]: the records to submit.  The test
    [if evaluations:] fails on [False] and on an empty dict. *)
Definition output_evaluation (configuration_item : configuration_item)
  (evaluations : option (dict (list value))) : result (list evaluation) :=
  match evaluations with
  | Some ((_ :: _) as evaluations) =>
      rfold (fun outputEvaluation evaluation =>
        groups <- getitem evaluations evaluation ;;;
        if (0 <? length groups)%nat then
          names <- str_join "," groups ;;;
          Ok (outputEvaluation ++
              [Evaluation "AWS::EC2::Instance" evaluation "NON_COMPLIANT"
                 ("Instance has non compliant groups " ++ names)%string
                 (configurationItemCaptureTime configuration_item)])
        else
          Ok (outputEvaluation ++
              [Evaluation "AWS::EC2::Instance" evaluation "COMPLIANT"
                 "This resource is compliant with the rule."
                 (configurationItemCaptureTime configuration_item)]))
        (keys evaluations) []
  | _ =>
      Ok [Notice "NOT_APPLICABLE"
            ("The rule doesn't apply to resources of type " ++
             resourceType configuration_item ++ ".")%string]
  end.

(** [config.put_evaluations].  Before anything is sent the client checks
    every record against the shape of an evaluation, and refuses the call
    with [ParamValidationError] when a record lacks the keys of that shape,
    as the notice does.  What the service answers to a request that was
    sent is not modelled. *)
Definition accepted (record : evaluation) : bool :=
  match record with
  | Evaluation _ _ _ _ _ => true
  | Notice _ _ => false
  end.

Definition put_evaluations (Evaluations : list evaluation)
  (ResultToken : string) : M unit :=
  request (PutEvaluations Evaluations ResultToken)
    (if forallb accepted Evaluations then Ok tt
     else Raise ParamValidationError).

Definition lambda_handler (ec2 : directory) (event : event) : M unit :=
  let configuration_item := configurationItem (invokingEvent event) in
  let rule_parameters := ruleParameters event in
  let result_token :=
    match resultToken event with
    | Some token => token
    | None => "No token found."
    end in
  evaluations <- evaluate_compliance ec2 configuration_item rule_parameters ;;
  outputEvaluation <- lift (output_evaluation configuration_item evaluations) ;;
  _ <- request (PrintJson outputEvaluation) (Ok tt) ;;
  put_evaluations outputEvaluation result_token.

(** ** Statements taken from the written specification, for comparison *)

Definition rules (ip_permissions : option (list permission)) : list permission :=
  match ip_permissions with
  | Some l => l
  | None => []
  end.

(** The specification's reading of [exposedPorts]: a rule counts when one of
    its ranges is equal to the unrestricted range. *)
Definition exposedPorts_by_equality (ip_permissions : option (list permission))
  : Prop :=
  forall port : Z,
    In port (find_exposed_ports ip_permissions) <->
    exists permission,
      In permission (rules ip_permissions) /\
      (exists ip, In ip (IpRanges permission) /\ CidrIp ip = "0.0.0.0/0") /\
      FromPort permission <= port <= ToPort permission.

(** The specification's reading of [expandPortSpec] on a range whose bounds
    are the wrong way round: no value is returned. *)
Definition inverted_range_rejected (lower upper : string) : Prop :=
  forall l u, int lower = Ok l -> int upper = Ok u -> u < l ->
  exists e, expand_range (lower ++ "-" ++ upper)%string = Raise e.

(** ** Sample data *)

Definition open_rule (cidr : string) (from to : Z) : permission :=
  {| FromPort := from; ToPort := to; IpRanges := [ {| CidrIp := cidr |} ] |}.

(** ** What the resolver computes, instance by instance *)

(** The identifiers that [secGroupsForInstanceId] reports for an instance. *)
Definition group_ids (ec2 : directory) (instanceId : string) : list value :=
  map (fun g => Str (GroupId g)) (security_groups ec2 instanceId).

(** The instances listed by the directory for a trigger group. *)
Definition attached_instances (ec2 : directory) (triggerSecGroup : string)
  : list string :=
  map InstanceId (flat_map Instances (describe_instances ec2 triggerSecGroup)).

(** One round of the loop over the instances. *)
Definition scope_step (ec2 : directory)
  (found : dict collection * list value) (instanceId : string)
  : dict collection * list value :=
  (dict_set instanceId (PyList (group_ids ec2 instanceId)) (fst found),
   fold_left (fun s v => insert v s) (group_ids ec2 instanceId) (snd found)).

(** The record lists handed to [put_evaluations], call after call. *)
Definition submitted {A : Type} (m : M A) : list (list evaluation) :=
  flat_map (fun c => match c with
                     | PutEvaluations records _ => [records]
                     | _ => []
                     end) (calls m).

(** The specification's reading of the scope of a security-group trigger:
    the set of groups to check is never empty and holds the trigger. *)
Definition trigger_group_always_checked (ec2 : directory)
  (triggerSecGroup : string) : Prop :=
  exists sc,
    outcome (determineEvaluationScopeFromTriggerSecGroup ec2 triggerSecGroup)
    = Ok sc /\
    (1 <= length (items (secGroupsToCheck sc)))%nat /\
    In (Str triggerSecGroup) (items (secGroupsToCheck sc)).

(** An account without instances. *)
Definition empty_account : directory :=
  {| describe_instances := fun _ => [];
     security_groups := fun _ => [];
     ip_permissions := fun _ => None |}.

Definition sg (id : string) : group := {| GroupName := id; GroupId := id |}.

(** Group sg-2 on instances i-2 and i-3, the latter also in sg-3, which
    opens port 80 to everyone; instance i-1 in sg-1, open on 1-100. *)
Definition two_instances : directory :=
  {| describe_instances := fun g =>
       if String.eqb g "sg-2" then
         [ {| Instances := [ {| InstanceId := "i-2" |};
                             {| InstanceId := "i-3" |} ] |} ]
       else if String.eqb g "sg-3" then
         [ {| Instances := [ {| InstanceId := "i-3" |} ] |} ]
       else if String.eqb g "sg-1" then
         [ {| Instances := [ {| InstanceId := "i-1" |} ] |} ]
       else [];
     security_groups := fun i =>
       if String.eqb i "i-1" then [sg "sg-1"]
       else if String.eqb i "i-2" then [sg "sg-2"]
       else if String.eqb i "i-3" then [sg "sg-2"; sg "sg-3"]
       else [];
     ip_permissions := fun g =>
       if String.eqb g "sg-1" then Some [open_rule "0.0.0.0/0" 1 100]
       else if String.eqb g "sg-2" then Some [open_rule "10.0.0.0/8" 1 100]
       else if String.eqb g "sg-3" then Some [open_rule "0.0.0.0/0" 80 80]
       else None |}.

(** An invocation for one resource, with one forbidden port. *)
Definition invocation (resource key id : string) : event :=
  {| invokingEvent :=
       {| configurationItem :=
            {| resourceType := resource;
               configuration := [(key, id)];
               configurationItemCaptureTime := "2016-06-13T10:00:00.000Z" |} |};
     ruleParameters := [("web", "80")];
     resultToken := Some "token" |}.

(** [result_token] of [lambda_handler]. *)
Definition token_of (event : event) : string :=
  match resultToken event with
  | Some token => token
  | None => "No token found."
  end.

(** ** What the evaluator computes, group by group and row by row *)

(** The verdict of one round of [getViolationGroups]. *)
Definition group_violates (ec2 : directory) (forbiddenPorts : dict string)
  (secGroup : value) : result bool :=
  permissions <- outcome (securityGroupIpPermissions ec2 secGroup) ;;;
  find_violation (find_exposed_ports permissions) forbiddenPorts.

Definition holds (verdict : result bool) : bool :=
  match verdict with
  | Ok true => true
  | _ => false
  end.

(** The row of [violationInstances] for one instance of the scope. *)
Definition violation_row (violationGroups : list value)
  (entry : string * collection) : string * list value :=
  (fst entry, filter (fun g => mem g (items (snd entry))) violationGroups).

(** The identifiers among a list of values. *)
Definition names (groups : list value) : list string :=
  flat_map (fun v => match v with Str s => [s] | Dict _ => [] end) groups.

(** The record built for one row of [evaluations]. *)
Definition record_of (configuration_item : configuration_item)
  (row : string * list value) : evaluation :=
  if (0 <? length (snd row))%nat then
    Evaluation "AWS::EC2::Instance" (fst row) "NON_COMPLIANT"
      ("Instance has non compliant groups " ++ join "," (names (snd row)))%string
      (configurationItemCaptureTime configuration_item)
  else
    Evaluation "AWS::EC2::Instance" (fst row) "COMPLIANT"
      "This resource is compliant with the rule."
      (configurationItemCaptureTime configuration_item).

(** The records about one instance. *)
Definition about (instanceId : string) (record : evaluation) : bool :=
  match record with
  | Evaluation _ id _ _ _ => String.eqb id instanceId
  | Notice _ _ => false
  end.

(** Lists that hold group identifiers only. *)
Definition identifiers (l : list value) : Prop :=
  forall v, In v l -> exists s, v = Str s.

(** The [ComplianceType] of a record. *)
Definition status (record : evaluation) : string :=
  match record with
  | Evaluation _ _ compliance _ _ => compliance
  | Notice compliance _ => compliance
  end.

(** ** Two runs on one account *)

(** Two lots of answers for the same account: the same instances and rules,
    the groups of an instance possibly listed in another order. *)
Definition same_snapshot (a b : directory) : Prop :=
  (forall g, describe_instances a g = describe_instances b g) /\
  (forall i, Permutation (security_groups a i) (security_groups b i)) /\
  (forall g, ip_permissions a g = ip_permissions b g).

(** Two records that agree on the resource, the status and the timestamp,
    and on the annotation up to the order of the groups it lists. *)
Definition same_record (r r' : evaluation) : Prop :=
  match r, r' with
  | Evaluation t i c a ts, Evaluation t' i' c' a' ts' =>
      t = t' /\ i = i' /\ c = c' /\ ts = ts' /\
      (a = a' \/
       exists ids ids',
         Permutation ids ids' /\
         a = ("Instance has non compliant groups " ++ join "," ids)%string /\
         a' = ("Instance has non compliant groups " ++ join "," ids')%string)
  | Notice c a, Notice c' a' => c = c' /\ a = a'
  | _, _ => False
  end.

(** Two entries of [instancesToEvaluate], and two rows of
    [violationInstances], that differ by the order of their groups only. *)
Definition entry_alike (e e' : string * collection) : Prop :=
  fst e = fst e' /\
  exists l l', snd e = PyList l /\ snd e' = PyList l' /\ Permutation l l'.

Definition row_alike (r r' : string * list value) : Prop :=
  fst r = fst r' /\ Permutation (snd r) (snd r') /\ identifiers (snd r).

(** The account [two_instances] with the groups of i-3 listed the other way
    round. *)
Definition two_instances_reordered : directory :=
  {| describe_instances := describe_instances two_instances;
     security_groups := fun i =>
       if String.eqb i "i-3" then [sg "sg-3"; sg "sg-2"]
       else security_groups two_instances i;
     ip_permissions := ip_permissions two_instances |}.

(** * Properties *)

(** ** Builtins *)

Lemma In_range (a b p : Z) : In p (range a b) <-> a <= p < b.
Proof.
  unfold range. rewrite in_map_iff. split.
  - intros [i [<- Hi]]. apply in_seq in Hi. lia.
  - intros Hp. exists (Z.to_nat (p - a)). split; [lia|].
    apply in_seq. lia.
Qed.

Lemma length_range (a b : Z) : length (range a b) = Z.to_nat (b - a).
Proof. unfold range. now rewrite length_map, length_seq. Qed.

Lemma range_empty (a b : Z) : b <= a -> range a b = [].
Proof.
  intros H. unfold range.
  replace (Z.to_nat (b - a)) with 0%nat by lia. reflexivity.
Qed.

Lemma prefix_refl (s : string) : String.prefix s s = true.
Proof.
  induction s as [|c s IH]; simpl; [reflexivity|].
  destruct (ascii_dec c c); [exact IH | congruence].
Qed.

Lemma prefix_empty (s : string) : String.prefix "" s = true.
Proof. destruct s; reflexivity. Qed.

Lemma contains_refl (s : string) : contains s s = true.
Proof.
  destruct s as [|c s]; [reflexivity|].
  cbn [contains]. now rewrite prefix_refl.
Qed.

(** A dashed string splits in at least two parts, a dashless one stays
    whole. *)
Lemma split_shape (s : string) :
  (contains "-" s = false /\ split "-" s = [s]) \/
  (contains "-" s = true /\
   exists lower upper rest, split "-" s = lower :: upper :: rest).
Proof.
  induction s as [|c s IH]; [left; split; reflexivity|].
  cbn [contains split String.prefix].
  destruct (ascii_dec "-" c) as [<-|Hc].
  - right. split; [now rewrite prefix_empty|]. cbn.
    destruct IH as [[_ ->]|[_ (l & u & r & ->)]]; eauto.
  - replace (Ascii.eqb c "-") with false
      by (symmetry; apply Ascii.eqb_neq; congruence).
    destruct IH as [[Hn ->]|[Hy (l & u & r & ->)]].
    + left. split; [exact Hn | reflexivity].
    + right. split; [exact Hy|]. eauto.
Qed.

(** ** Exposed ports *)

Lemma In_exposed_ranges (ports : list Z) (ranges : list ip_range)
  (acc : list Z) (port : Z) :
  In port
    (fold_left (fun exposed_ports ip =>
       if contains "0.0.0.0/0" (CidrIp ip) then exposed_ports ++ ports
       else exposed_ports) ranges acc) <->
  In port acc \/
  ((exists ip, In ip ranges /\ contains "0.0.0.0/0" (CidrIp ip) = true) /\
   In port ports).
Proof.
  revert acc. induction ranges as [|ip ranges IH]; intros acc; simpl.
  - split; [auto|]. intros [H|[[ip [[] _]] _]]. exact H.
  - rewrite IH. destruct (contains "0.0.0.0/0" (CidrIp ip)) eqn:E.
    + rewrite in_app_iff. split.
      * intros [[H|H]|[[ip' [Hin Hc]] H]]; eauto 8.
      * intros [H|[_ H]]; auto.
    + split.
      * intros [H|[[ip' [Hin Hc]] H]]; eauto 8.
      * intros [H|[[ip' [[<-|Hin] Hc]] H]]; [auto|congruence|eauto 8].
Qed.

Lemma In_exposed_permissions (permissions : list permission) (acc : list Z)
  (port : Z) :
  In port
    (fold_left (fun exposed_ports permission =>
       fold_left (fun exposed_ports ip =>
         if contains "0.0.0.0/0" (CidrIp ip)
         then exposed_ports ++ range (FromPort permission) (ToPort permission + 1)
         else exposed_ports)
         (IpRanges permission) exposed_ports) permissions acc) <->
  In port acc \/
  exists permission,
    In permission permissions /\
    (exists ip, In ip (IpRanges permission) /\
                contains "0.0.0.0/0" (CidrIp ip) = true) /\
    FromPort permission <= port <= ToPort permission.
Proof.
  revert acc. induction permissions as [|p permissions IH]; intros acc; simpl.
  - split; [auto|]. intros [H|[p [[] _]]]. exact H.
  - rewrite IH, In_exposed_ranges, In_range. split.
    + intros [[H|[Hip H]]|[p' [Hin H]]]; [auto| |eauto 8].
      right. exists p. repeat split; auto; lia.
    + intros [H|[p' [[<-|Hin] [Hip H]]]]; [auto| |eauto 8].
      left. right. split; [exact Hip | lia].
Qed.

(** C3 (amended).  The ports returned by [find_exposed_ports] are exactly
    the integers of [FromPort..ToPort] of the rules that have a source
    range whose text contains "0.0.0.0/0" (the test is Python's [in] on two
    strings, so a range equal to "0.0.0.0/0" counts, and so does every other
    text with that substring); rules without such a range contribute
    nothing, and an absent or empty rule list gives no port. *)
Theorem find_exposed_ports_union (ip_permissions : option (list permission)) :
  (forall port : Z,
     In port (find_exposed_ports ip_permissions) <->
     exists permission,
       In permission (rules ip_permissions) /\
       (exists ip, In ip (IpRanges permission) /\
                   contains "0.0.0.0/0" (CidrIp ip) = true) /\
       FromPort permission <= port <= ToPort permission) /\
  contains "0.0.0.0/0" "0.0.0.0/0" = true /\
  find_exposed_ports None = [] /\
  find_exposed_ports (Some []) = [].
Proof.
  split; [|repeat split].
  intros port. unfold find_exposed_ports.
  fold (rules ip_permissions). rewrite In_exposed_permissions.
  split; [intros [[]|H]; exact H | auto].
Qed.

(** C3, as written, fails: a rule whose only source range is "10.0.0.0/0"
    is not equal to the unrestricted range, and its port is returned. *)
Lemma find_exposed_ports_not_by_equality :
  ~ exposedPorts_by_equality (Some [open_rule "10.0.0.0/0" 22 22]).
Proof.
  intros claim. destruct (claim 22) as [H _].
  destruct H as (permission & Hin & (ip & Hip & Heq) & _).
  - vm_compute. auto.
  - destruct Hin as [<-|[]]. destruct Hip as [<-|[]]. discriminate Heq.
Qed.

(** ** Port specifications *)

Lemma split_dashed (ports lower upper : string) (rest : list string) :
  split "-" ports = lower :: upper :: rest -> contains "-" ports = true.
Proof.
  intros H. destruct (split_shape ports) as [[_ E]|[E _]]; [|exact E].
  rewrite E in H. discriminate H.
Qed.

Lemma int_cases (s : string) :
  (exists n, int s = Ok n) \/ int s = Raise ValueError.
Proof.
  unfold int.
  destruct (match lstrip s with
            | String "-"%char rest => option_map Z.opp (unsigned rest)
            | String "+"%char rest => unsigned rest
            | _ => unsigned (lstrip s)
            end); eauto.
Qed.

(** C4 (amended).  [expand_range] raises [ValueError] (the script has no
    error of its own for a bad port specification) when the text before the
    first dash or the text between the first and the second dash is not an
    integer literal, as in "-1", and when a specification without a dash is
    not an integer literal.  When both bounds are integers and the lower one
    is greater than the upper one, it returns the empty list. *)
Theorem expand_range_invalid (ports : string) :
  (forall lower upper rest,
     split "-" ports = lower :: upper :: rest ->
     int lower = Raise ValueError \/ int upper = Raise ValueError ->
     expand_range ports = Raise ValueError) /\
  (contains "-" ports = false ->
   int ports = Raise ValueError ->
   expand_range ports = Raise ValueError) /\
  (forall lower upper rest l u,
     split "-" ports = lower :: upper :: rest ->
     int lower = Ok l -> int upper = Ok u -> u < l ->
     expand_range ports = Ok []).
Proof.
  unfold expand_range. repeat split.
  - intros lower upper rest Hs Hbad.
    rewrite (split_dashed _ _ _ _ Hs), Hs. cbn.
    destruct Hbad as [->| ->]; [reflexivity|].
    destruct (int_cases lower) as [[l ->]| ->]; reflexivity.
  - intros -> ->. reflexivity.
  - intros lower upper rest l u Hs Hl Hu Hlt.
    rewrite (split_dashed _ _ _ _ Hs), Hs. cbn.
    rewrite Hl, Hu. cbn. now rewrite range_empty by lia.
Qed.

Lemma expand_range_invalid_witness :
  expand_range "-1" = Raise ValueError /\
  expand_range "http" = Raise ValueError /\
  expand_range "5-3" = Ok [].
Proof.
  split; [|split].
  - destruct (expand_range_invalid "-1") as [H _].
    apply (H "" "1" []); [reflexivity | left; reflexivity].
  - destruct (expand_range_invalid "http") as [_ [H _]].
    apply H; reflexivity.
  - destruct (expand_range_invalid "5-3") as [_ [_ H]].
    apply (H "5" "3" [] 5 3); [reflexivity | reflexivity | reflexivity | lia].
Defined.

(** C4, as written, fails: on "5-3", whose lower bound exceeds the upper
    one, a value is returned, the empty list. *)
Lemma expand_range_inverted_returns : ~ inverted_range_rejected "5" "3".
Proof.
  intros claim.
  destruct (claim 5 3) as [e He]; [reflexivity | reflexivity | lia |].
  discriminate He.
Qed.

(** ** Dicts *)

Lemma dict_get_In {V : Type} (k : string) (v : V) (d : dict V) :
  dict_get k d = Some v -> In (k, v) d.
Proof.
  induction d as [|[k' v'] d IH]; simpl; [discriminate|].
  destruct (String.eqb_spec k k') as [->|Hne].
  - intros [= ->]. now left.
  - intros H. right. now apply IH.
Qed.

Lemma In_dict_get {V : Type} (k : string) (v : V) (d : dict V) :
  NoDup (keys d) -> In (k, v) d -> dict_get k d = Some v.
Proof.
  induction d as [|[k' v'] d IH]; simpl; [intros _ []|].
  intros Hnd [[= -> ->]|Hin]; inversion Hnd as [|? ? Hnotin Hnd']; subst.
  - now rewrite String.eqb_refl.
  - destruct (String.eqb_spec k k') as [->|Hne]; [|now apply IH].
    exfalso. apply Hnotin. unfold keys. apply in_map_iff. now exists (k', v).
Qed.

Lemma In_keys_dict_get {V : Type} (k : string) (d : dict V) :
  In k (keys d) -> exists v, dict_get k d = Some v.
Proof.
  induction d as [|[k' v'] d IH]; simpl; [intros []|].
  intros [<-|Hin].
  - rewrite String.eqb_refl. eauto.
  - destruct (String.eqb k k'); eauto.
Qed.

(** ** Violations *)

Lemma port_exposed_iff (exposed_ports ports : list Z) :
  existsb (fun port => existsb (Z.eqb port) exposed_ports) ports = true <->
  exists port, In port ports /\ In port exposed_ports.
Proof.
  rewrite existsb_exists. split.
  - intros [port [Hin Hex]]. apply existsb_exists in Hex.
    destruct Hex as [q [Hq Heq]]. apply Z.eqb_eq in Heq. subst q. eauto.
  - intros [port [Hin Hex]]. exists port. split; [exact Hin|].
    apply existsb_exists. exists port. split; [exact Hex | apply Z.eqb_refl].
Qed.

Lemma find_violation_loop_total (exposed_ports : list Z)
  (forbidden_ports : dict string) (remaining : list string) :
  (forall label, In label remaining ->
     exists spec ports, dict_get label forbidden_ports = Some spec /\
                        expand_range spec = Ok ports) ->
  exists b,
    find_violation_loop exposed_ports forbidden_ports remaining = Ok b /\
    (b = true <->
     exists label spec ports port,
       In label remaining /\ dict_get label forbidden_ports = Some spec /\
       expand_range spec = Ok ports /\ In port ports /\ In port exposed_ports).
Proof.
  induction remaining as [|label rest IH]; intros Hwf; simpl.
  - exists false. split; [reflexivity|]. split; [discriminate|].
    intros (? & ? & ? & ? & [] & _).
  - destruct (Hwf label (or_introl eq_refl)) as (spec & ports & Hget & Hexp).
    unfold getitem. rewrite Hget. cbn. rewrite Hexp. cbn.
    destruct (existsb _ ports) eqn:Hhit.
    + exists true. split; [reflexivity|]. split; [|reflexivity]. intros _.
      apply port_exposed_iff in Hhit. destruct Hhit as [port [Hp He]].
      exists label, spec, ports, port. auto.
    + destruct IH as [b [Hb Hiff]]; [intros l Hl; apply Hwf; now right|].
      exists b. split; [exact Hb|]. rewrite Hiff. split.
      * intros (l & s & ps & p & Hl & H). exists l, s, ps, p. split; [now right | exact H].
      * intros (l & s & ps & p & [<-|Hl] & Hg & He & Hp & Hx); [|eauto 10].
        rewrite Hget in Hg. injection Hg as <-. rewrite Hexp in He.
        injection He as <-.
        assert (existsb (fun port => existsb (Z.eqb port) exposed_ports) ports
                = true) as Habs by (apply port_exposed_iff; eauto).
        rewrite Hhit in Habs. discriminate Habs.
Qed.



(** ** Computations and their logs *)

Lemma outcome_bind {A B : Type} (m : M A) (k : A -> M B) :
  outcome (x <- m ;; k x) = (x <- outcome m ;;; outcome (k x)).
Proof.
  destruct m as [log [a|e]]; cbn; [|reflexivity].
  destruct (k a); reflexivity.
Qed.

Lemma calls_bind {A B : Type} (m : M A) (k : A -> M B) :
  calls (x <- m ;; k x) =
  calls m ++ match outcome m with
             | Ok a => calls (k a)
             | Raise _ => []
             end.
Proof.
  destruct m as [log [a|e]]; cbn; [|now rewrite app_nil_r].
  destruct (k a); reflexivity.
Qed.

Lemma bind_ok {A B : Type} (log : list call) (a : A) (k : A -> M B) :
  (x <- (log, Ok a) ;; k x) = (log ++ calls (k a), outcome (k a)).
Proof. cbn. destruct (k a); reflexivity. Qed.

(** A loop whose body always succeeds and logs calls that depend on the
    visited element only. *)
Lemma foldM_steps {S X : Type} (body : S -> X -> M S)
  (log : X -> list call) (step : S -> X -> S) (xs : list X) (acc : S) :
  (forall acc x, body acc x = (log x, Ok (step acc x))) ->
  foldM body xs acc = (flat_map log xs, Ok (fold_left step xs acc)).
Proof.
  intros Hbody. revert acc. induction xs as [|x xs IH]; intros acc.
  - reflexivity.
  - cbn [foldM flat_map fold_left]. rewrite Hbody, bind_ok, IH. reflexivity.
Qed.

Lemma outcome_foldM {S X : Type} (body : S -> X -> M S) (xs : list X)
  (acc : S) :
  outcome (foldM body xs acc) = rfold (fun a x => outcome (body a x)) xs acc.
Proof.
  revert acc. induction xs as [|x xs IH]; intros acc; [reflexivity|].
  cbn [foldM rfold]. rewrite outcome_bind.
  destruct (outcome (body acc x)); cbn; [apply IH | reflexivity].
Qed.

(** ** Values and sets *)

Lemma value_eqb_eq (v w : value) : value_eqb v w = true <-> v = w.
Proof.
  destruct v as [s|[n i]], w as [t|[m j]]; cbn; try (split; discriminate).
  - rewrite String.eqb_eq. split; congruence.
  - unfold group_eqb. cbn. rewrite andb_true_iff, !String.eqb_eq.
    split; [intros [-> ->]; reflexivity | intros [= -> ->]; auto].
Qed.

Lemma mem_In (x : value) (l : list value) : mem x l = true <-> In x l.
Proof.
  unfold mem. rewrite existsb_exists. split.
  - intros [y [Hy Heq]]. apply value_eqb_eq in Heq. now subst.
  - intros H. exists x. split; [exact H | now apply value_eqb_eq].
Qed.

Lemma In_insert (x y : value) (s : list value) :
  In y (insert x s) <-> y = x \/ In y s.
Proof.
  unfold insert. destruct (mem x s) eqn:E.
  - apply mem_In in E. split; [auto | intros [->|H]; auto].
  - rewrite in_app_iff. cbn. intuition.
Qed.

Lemma NoDup_insert (x : value) (s : list value) :
  NoDup s -> NoDup (insert x s).
Proof.
  intros H. unfold insert. destruct (mem x s) eqn:E; [exact H|].
  apply NoDup_app; [exact H | repeat constructor; intros [] |].
  intros y Hy [<-|[]]. apply mem_In in Hy. congruence.
Qed.

Lemma length_insert (x : value) (s : list value) :
  (length (insert x s) <= S (length s))%nat.
Proof.
  unfold insert. destruct (mem x s); [lia|].
  rewrite length_app. cbn. lia.
Qed.

Lemma In_inserts (xs s : list value) (y : value) :
  In y (fold_left (fun s v => insert v s) xs s) <-> In y s \/ In y xs.
Proof.
  revert s. induction xs as [|x xs IH]; intros s; cbn; [intuition|].
  rewrite IH, In_insert. intuition.
Qed.

Lemma NoDup_inserts (xs s : list value) :
  NoDup s -> NoDup (fold_left (fun s v => insert v s) xs s).
Proof.
  revert s. induction xs as [|x xs IH]; intros s H; cbn; [exact H|].
  apply IH. now apply NoDup_insert.
Qed.

Lemma length_inserts (xs s : list value) :
  (length (fold_left (fun s v => insert v s) xs s) <= length s + length xs)%nat.
Proof.
  revert s. induction xs as [|x xs IH]; intros s; cbn; [lia|].
  specialize (IH (insert x s)). pose proof (length_insert x s). lia.
Qed.

Lemma dict_get_set_eq {V : Type} (k : string) (v : V) (d : dict V) :
  dict_get k (dict_set k v d) = Some v.
Proof.
  induction d as [|[k' v'] d IH]; cbn.
  - now rewrite String.eqb_refl.
  - destruct (String.eqb k k') eqn:E; cbn; rewrite ?String.eqb_refl, ?E; auto.
Qed.

Lemma dict_get_set_neq {V : Type} (k k' : string) (v : V) (d : dict V) :
  k <> k' -> dict_get k' (dict_set k v d) = dict_get k' d.
Proof.
  intros Hne. induction d as [|[k0 v0] d IH]; cbn.
  - apply not_eq_sym, String.eqb_neq in Hne. now rewrite Hne.
  - destruct (String.eqb_spec k k0) as [<-|Hk]; cbn.
    + apply not_eq_sym, String.eqb_neq in Hne. now rewrite Hne.
    + now rewrite IH.
Qed.

Lemma dict_set_set {V : Type} (k : string) (v w : V) (d : dict V) :
  dict_set k w (dict_set k v d) = dict_set k w d.
Proof.
  induction d as [|[k' v'] d IH]; cbn.
  - now rewrite String.eqb_refl.
  - destruct (String.eqb k k') eqn:E; cbn; rewrite ?String.eqb_refl, ?E, ?IH; auto.
Qed.

Lemma dict_set_same {V : Type} (k : string) (v : V) (d : dict V) :
  dict_get k d = Some v -> dict_set k v d = d.
Proof.
  induction d as [|[k' v'] d IH]; cbn; [discriminate|].
  destruct (String.eqb_spec k k') as [->|Hne].
  - now intros [= ->].
  - intros H. now rewrite IH.
Qed.

Lemma keys_dict_set {V : Type} (k : string) (v : V) (d : dict V) :
  keys (dict_set k v d) = if existsb (String.eqb k) (keys d) then keys d
                          else keys d ++ [k].
Proof.
  induction d as [|[k' v'] d IH]; cbn; [reflexivity|].
  destruct (String.eqb_spec k k') as [->|Hne]; cbn; [reflexivity|].
  unfold keys in IH. rewrite IH.
  destruct (existsb (String.eqb k) (map fst d)); reflexivity.
Qed.

Lemma In_keys_dict_set {V : Type} (k k' : string) (v : V) (d : dict V) :
  In k' (keys (dict_set k v d)) <-> k' = k \/ In k' (keys d).
Proof.
  rewrite keys_dict_set. destruct (existsb (String.eqb k) (keys d)) eqn:E.
  - apply existsb_exists in E. destruct E as [x [Hx Heq]].
    apply String.eqb_eq in Heq. subst x.
    split; [auto | intros [->|H]; auto].
  - rewrite in_app_iff. cbn. intuition.
Qed.

Lemma NoDup_keys_dict_set {V : Type} (k : string) (v : V) (d : dict V) :
  NoDup (keys d) -> NoDup (keys (dict_set k v d)).
Proof.
  intros H. rewrite keys_dict_set.
  destruct (existsb (String.eqb k) (keys d)) eqn:E; [exact H|].
  apply NoDup_app; [exact H | repeat constructor; intros [] |].
  intros x Hx [<-|[]].
  assert (existsb (String.eqb k) (keys d) = true) as Habs
    by (apply existsb_exists; exists k; split; [exact Hx | apply String.eqb_refl]).
  congruence.
Qed.

(** ** The scope of a security-group trigger *)

Lemma fold_left_flat_map {S X Y : Type} (f : S -> Y -> S) (g : X -> list Y)
  (xs : list X) (acc : S) :
  fold_left (fun acc x => fold_left f (g x) acc) xs acc =
  fold_left f (flat_map g xs) acc.
Proof.
  revert acc. induction xs as [|x xs IH]; intros acc; cbn; [reflexivity|].
  now rewrite fold_left_app, IH.
Qed.

Lemma fold_left_map {S X Y : Type} (f : S -> Y -> S) (g : X -> Y)
  (xs : list X) (acc : S) :
  fold_left (fun acc x => f acc (g x)) xs acc = fold_left f (map g xs) acc.
Proof.
  revert acc. induction xs as [|x xs IH]; intros acc; cbn; [reflexivity|].
  apply IH.
Qed.

Lemma flat_map_singleton {X Y : Type} (f : X -> Y) (xs : list X) :
  flat_map (fun x => [f x]) xs = map f xs.
Proof. induction xs as [|x xs IH]; cbn; [reflexivity | now rewrite IH]. Qed.

Lemma flat_map_map_flat {X Y Z : Type} (f : Y -> Z) (g : X -> list Y)
  (xs : list X) :
  flat_map (fun x => map f (g x)) xs = map f (flat_map g xs).
Proof.
  induction xs as [|x xs IH]; cbn; [reflexivity|].
  now rewrite map_app, IH.
Qed.

(** The loop over the groups of one instance. *)
Lemma attach_groups (instanceId : string) (groups : list group)
  (d : dict collection) (listed s : list value) :
  dict_get instanceId d = Some (PyList listed) ->
  rfold (fun '(instancesToEvaluate, secGroupsToCheck) group =>
           attached <- getitem instancesToEvaluate instanceId ;;;
           attached <- append attached (Str (GroupId group)) ;;;
           secGroupsToCheck <- set_add secGroupsToCheck (Str (GroupId group)) ;;;
           Ok (dict_set instanceId attached instancesToEvaluate,
               secGroupsToCheck))
        groups (d, s) =
  Ok (dict_set instanceId
        (PyList (listed ++ map (fun g => Str (GroupId g)) groups)) d,
      fold_left (fun s v => insert v s)
        (map (fun g => Str (GroupId g)) groups) s).
Proof.
  revert d listed s. induction groups as [|g groups IH]; intros d listed s Hget.
  - cbn. now rewrite app_nil_r, dict_set_same.
  - cbn [rfold]. unfold getitem at 1. rewrite Hget. cbn [rbind append set_add hash].
    rewrite (IH _ (listed ++ [Str (GroupId g)])) by apply dict_get_set_eq.
    rewrite dict_set_set, <- app_assoc. reflexivity.
Qed.

Lemma determineEvaluationScope_run (ec2 : directory) (triggerSecGroup : string) :
  determineEvaluationScopeFromTriggerSecGroup ec2 triggerSecGroup =
  (DescribeInstances triggerSecGroup ::
     map InstanceSecurityGroups (attached_instances ec2 triggerSecGroup),
   Ok {| instancesToEvaluate :=
           fst (fold_left (scope_step ec2)
                  (attached_instances ec2 triggerSecGroup) ([], []));
         secGroupsToCheck :=
           PySet (snd (fold_left (scope_step ec2)
                         (attached_instances ec2 triggerSecGroup) ([], []))) |}).
Proof.
  unfold determineEvaluationScopeFromTriggerSecGroup,
    instancesForSecurityGroupId, request, attached_instances.
  rewrite bind_ok.
  rewrite (foldM_steps _
             (fun r => map InstanceSecurityGroups (map InstanceId (Instances r)))
             (fun found r =>
                fold_left (scope_step ec2) (map InstanceId (Instances r)) found)).
  - rewrite bind_ok. cbn [calls outcome fst snd ret].
    rewrite flat_map_map_flat, flat_map_map_flat, fold_left_flat_map.
    rewrite <- flat_map_map_flat. rewrite app_nil_r.
    rewrite (flat_map_map_flat InstanceId Instances). reflexivity.
  - intros found r.
    rewrite (foldM_steps _
               (fun i => [InstanceSecurityGroups (InstanceId i)])
               (fun found i => scope_step ec2 found (InstanceId i))).
    + rewrite flat_map_singleton, map_map, fold_left_map. reflexivity.
    + intros [d s] i. unfold secGroupsForInstanceId, request.
      rewrite bind_ok. cbn [calls outcome fst snd lift app].
      rewrite (attach_groups _ _ _ []) by apply dict_get_set_eq.
      rewrite dict_set_set. reflexivity.
Qed.

Lemma scope_steps_untouched (ec2 : directory) (ids : list string)
  (found : dict collection * list value) (i : string) :
  ~ In i ids ->
  dict_get i (fst (fold_left (scope_step ec2) ids found)) = dict_get i (fst found).
Proof.
  revert found. induction ids as [|j ids IH]; intros found Hnot; [reflexivity|].
  cbn [fold_left]. rewrite IH by (intros H; apply Hnot; now right).
  apply dict_get_set_neq. intros ->. apply Hnot. now left.
Qed.

Lemma scope_steps_groups (ec2 : directory) (ids : list string)
  (found : dict collection * list value) (i : string) :
  In i ids ->
  dict_get i (fst (fold_left (scope_step ec2) ids found))
  = Some (PyList (group_ids ec2 i)).
Proof.
  revert found. induction ids as [|j ids IH]; intros found; [intros []|].
  intros Hin. cbn [fold_left].
  destruct (in_dec string_dec i ids) as [Hlater|Hnot]; [now apply IH|].
  destruct Hin as [->|Hin]; [|contradiction].
  rewrite scope_steps_untouched by exact Hnot. apply dict_get_set_eq.
Qed.

Lemma scope_steps_keys (ec2 : directory) (ids : list string)
  (found : dict collection * list value) (i : string) :
  In i (keys (fst (fold_left (scope_step ec2) ids found))) <->
  In i (keys (fst found)) \/ In i ids.
Proof.
  revert found. induction ids as [|j ids IH]; intros found; cbn [fold_left].
  - cbn. intuition.
  - rewrite IH. cbn [scope_step fst]. rewrite In_keys_dict_set. cbn. intuition.
Qed.

Lemma scope_steps_NoDup_keys (ec2 : directory) (ids : list string)
  (found : dict collection * list value) :
  NoDup (keys (fst found)) ->
  NoDup (keys (fst (fold_left (scope_step ec2) ids found))).
Proof.
  revert found. induction ids as [|j ids IH]; intros found H; [exact H|].
  cbn [fold_left]. apply IH. now apply NoDup_keys_dict_set.
Qed.

Lemma scope_steps_set (ec2 : directory) (ids : list string)
  (found : dict collection * list value) (g : value) :
  In g (snd (fold_left (scope_step ec2) ids found)) <->
  In g (snd found) \/ exists i, In i ids /\ In g (group_ids ec2 i).
Proof.
  revert found. induction ids as [|j ids IH]; intros found; cbn [fold_left].
  - split; [auto | intros [H|[i [[] _]]]; exact H].
  - rewrite IH. cbn [scope_step snd]. rewrite In_inserts. split.
    + intros [[H|H]|[i [Hi H]]]; [auto| |]; right; [exists j | exists i]; cbn; auto.
    + intros [H|[i [[<-|Hi] H]]]; [auto|auto|]. right. eauto.
Qed.

Lemma scope_steps_NoDup (ec2 : directory) (ids : list string)
  (found : dict collection * list value) :
  NoDup (snd found) -> NoDup (snd (fold_left (scope_step ec2) ids found)).
Proof.
  revert found. induction ids as [|j ids IH]; intros found H; [exact H|].
  cbn [fold_left]. apply IH. now apply NoDup_inserts.
Qed.

Lemma scope_steps_length (ec2 : directory) (ids : list string)
  (found : dict collection * list value) (bound : nat) :
  (forall i, In i ids -> (length (security_groups ec2 i) <= bound)%nat) ->
  (length (snd (fold_left (scope_step ec2) ids found))
   <= length (snd found) + length ids * bound)%nat.
Proof.
  revert found. induction ids as [|j ids IH]; intros found Hb; cbn [fold_left].
  - cbn. lia.
  - specialize (IH (scope_step ec2 found j) (fun i H => Hb i (or_intror H))).
    cbn [scope_step snd] in IH.
    pose proof (length_inserts (group_ids ec2 j) (snd found)) as Hins.
    pose proof (Hb j (or_introl eq_refl)) as Hj.
    unfold group_ids in Hins at 2. rewrite length_map in Hins.
    cbn [length]. lia.
Qed.

(** C1 (amended).  For a trigger group listed with N instances, each with at
    most M groups, [determineEvaluationScopeFromTriggerSecGroup] returns a
    scope whose instances are the listed ones, each mapped to all the group
    identifiers that the directory reports for it; the set of groups to
    check is the union of these lists and has at most N*M elements.  When
    N >= 1 and every listed instance reports the trigger among its groups,
    the set holds the trigger and so has at least one element.  (With no
    instance listed the set is empty.) *)
Theorem scope_of_security_group (ec2 : directory) (triggerSecGroup : string)
  (N M : nat) :
  length (attached_instances ec2 triggerSecGroup) = N ->
  (forall i, In i (attached_instances ec2 triggerSecGroup) ->
     (length (security_groups ec2 i) <= M)%nat) ->
  exists sc,
    outcome (determineEvaluationScopeFromTriggerSecGroup ec2 triggerSecGroup)
    = Ok sc /\
    (forall i, In i (keys (instancesToEvaluate sc)) <->
               In i (attached_instances ec2 triggerSecGroup)) /\
    (forall i, In i (attached_instances ec2 triggerSecGroup) ->
       dict_get i (instancesToEvaluate sc) = Some (PyList (group_ids ec2 i))) /\
    (forall g, In g (items (secGroupsToCheck sc)) <->
       exists i, In i (attached_instances ec2 triggerSecGroup) /\
                 In g (group_ids ec2 i)) /\
    NoDup (items (secGroupsToCheck sc)) /\
    (length (items (secGroupsToCheck sc)) <= N * M)%nat /\
    ((1 <= N)%nat ->
     (forall i, In i (attached_instances ec2 triggerSecGroup) ->
        In (Str triggerSecGroup) (group_ids ec2 i)) ->
     In (Str triggerSecGroup) (items (secGroupsToCheck sc)) /\
     (1 <= length (items (secGroupsToCheck sc)))%nat).
Proof.
  intros HN HM. rewrite determineEvaluationScope_run.
  eexists. split; [reflexivity|]. cbn [instancesToEvaluate secGroupsToCheck items].
  set (ids := attached_instances ec2 triggerSecGroup) in *.
  assert (forall g, In g (snd (fold_left (scope_step ec2) ids ([], []))) <->
            exists i, In i ids /\ In g (group_ids ec2 i)) as Hset.
  { intros g. rewrite scope_steps_set. cbn. intuition. }
  split; [|split; [|split; [|split; [|split]]]].
  - intros i. rewrite scope_steps_keys. cbn. intuition.
  - intros i Hi. now apply scope_steps_groups.
  - exact Hset.
  - apply scope_steps_NoDup. constructor.
  - subst N. exact (scope_steps_length ec2 ids ([], []) M HM).
  - intros Hpos Hall. destruct ids as [|i ids'] eqn:E; [cbn in HN; lia|].
    assert (In (Str triggerSecGroup)
              (snd (fold_left (scope_step ec2) (i :: ids') ([], [])))) as Hin
      by (apply Hset; exists i; split; [now left | apply Hall; now left]).
    split; [exact Hin|].
    destruct (snd (fold_left (scope_step ec2) (i :: ids') ([], [])));
      [destruct Hin | cbn; lia].
Qed.

Lemma scope_of_security_group_witness :
  exists sc,
    outcome (determineEvaluationScopeFromTriggerSecGroup two_instances "sg-2")
    = Ok sc /\
    (length (items (secGroupsToCheck sc)) <= 2 * 2)%nat /\
    In (Str "sg-2") (items (secGroupsToCheck sc)) /\
    (1 <= length (items (secGroupsToCheck sc)))%nat.
Proof.
  destruct (scope_of_security_group two_instances "sg-2" 2 2)
    as (sc & Hrun & _ & _ & _ & _ & Hlen & Htrigger).
  - reflexivity.
  - intros i [<-|[<-|[]]]; simpl; lia.
  - exists sc. destruct Htrigger as [Hin Hpos].
    + lia.
    + intros i [<-|[<-|[]]]; simpl; auto.
    + auto.
Defined.

(** C1, as written, fails: for a group without instances the set of groups
    to check is empty, so it has no element and misses the trigger. *)
Lemma no_instance_no_group_checked :
  ~ trigger_group_always_checked empty_account "sg-1".
Proof.
  intros (sc & Hrun & Hlen & _).
  vm_compute in Hrun. injection Hrun as <-. cbn in Hlen. lia.
Qed.

(** ** Dispatch on the resource type *)

(** C5.  When the resource type is neither the security-group type nor the
    instance type, [evaluate_compliance] returns [False] at once, without
    any call to the directory (so no group is fetched or checked), and the
    handler builds and prints one NOT_APPLICABLE record that names the
    resource type, and no record about an instance.  The record carries the
    keys [compliance_type] and [annotation] instead of those of an
    evaluation, so [put_evaluations] refuses it: the handler ends with
    [ParamValidationError] and the record is never sent. *)
Theorem unsupported_resource_type (ec2 : directory) (event : event) :
  resourceType (configurationItem (invokingEvent event))
    <> "AWS::EC2::SecurityGroup" ->
  resourceType (configurationItem (invokingEvent event))
    <> "AWS::EC2::Instance" ->
  evaluate_compliance ec2 (configurationItem (invokingEvent event))
    (ruleParameters event) = ([], Ok None) /\
  lambda_handler ec2 event =
  (let record :=
     Notice "NOT_APPLICABLE"
       ("The rule doesn't apply to resources of type " ++
        resourceType (configurationItem (invokingEvent event)) ++ ".")%string
   in [PrintJson [record]; PutEvaluations [record] (token_of event)],
   Raise ParamValidationError).
Proof.
  intros Hsg Hinst.
  apply String.eqb_neq in Hsg. apply String.eqb_neq in Hinst.
  assert (evaluate_compliance ec2 (configurationItem (invokingEvent event))
            (ruleParameters event) = ([], Ok None)) as Hrun.
  { unfold evaluate_compliance, trigger_scope. rewrite Hsg, Hinst. reflexivity. }
  split; [exact Hrun|].
  unfold lambda_handler. rewrite Hrun. reflexivity.
Qed.

Lemma unsupported_resource_type_witness :
  evaluate_compliance two_instances
    (configurationItem (invokingEvent (invocation "AWS::EC2::Vpc" "vpcId" "vpc-1")))
    [("web", "80")] = ([], Ok None) /\
  lambda_handler two_instances (invocation "AWS::EC2::Vpc" "vpcId" "vpc-1") =
  ([PrintJson [Notice "NOT_APPLICABLE"
                 "The rule doesn't apply to resources of type AWS::EC2::Vpc."];
    PutEvaluations [Notice "NOT_APPLICABLE"
                 "The rule doesn't apply to resources of type AWS::EC2::Vpc."]
      "token"],
   Raise ParamValidationError).
Proof.
  apply (unsupported_resource_type two_instances
           (invocation "AWS::EC2::Vpc" "vpcId" "vpc-1")); simpl; discriminate.
Defined.

(** C9.  For an instance trigger, when the instance has a group attached
    the handler stops with [TypeError] after the one lookup, with nothing
    printed or submitted: [set(groups)] is applied to the group entries,
    which are dicts.  When no group is attached the handler reports the
    instance as COMPLIANT. *)
Theorem instance_trigger_outcome (ec2 : directory) (event : event)
  (instanceId : string) :
  resourceType (configurationItem (invokingEvent event)) = "AWS::EC2::Instance" ->
  dict_get "instanceId" (configuration (configurationItem (invokingEvent event)))
  = Some instanceId ->
  (security_groups ec2 instanceId <> [] ->
   set_of (map Dict (security_groups ec2 instanceId)) = Raise TypeError /\
   lambda_handler ec2 event =
   ([InstanceSecurityGroups instanceId], Raise TypeError)) /\
  (security_groups ec2 instanceId = [] ->
   lambda_handler ec2 event =
   (let record :=
      Evaluation "AWS::EC2::Instance" instanceId "COMPLIANT"
        "This resource is compliant with the rule."
        (configurationItemCaptureTime (configurationItem (invokingEvent event)))
    in [InstanceSecurityGroups instanceId;
        PrintJson [record]; PutEvaluations [record] (token_of event)],
    Ok tt)).
Proof.
  intros Htype Hid.
  unfold lambda_handler, evaluate_compliance, trigger_scope, getitem, token_of.
  rewrite Htype, Hid. cbn. split.
  - intros Hsome. destruct (security_groups ec2 instanceId) as [|g gs];
      [contradiction|]. split; reflexivity.
  - intros ->. cbn. unfold getitem. cbn. rewrite String.eqb_refl. reflexivity.
Qed.

Lemma instance_trigger_outcome_witness :
  lambda_handler two_instances (invocation "AWS::EC2::Instance" "instanceId" "i-1")
  = ([InstanceSecurityGroups "i-1"], Raise TypeError) /\
  lambda_handler two_instances (invocation "AWS::EC2::Instance" "instanceId" "i-0")
  = ([InstanceSecurityGroups "i-0";
      PrintJson [Evaluation "AWS::EC2::Instance" "i-0" "COMPLIANT"
                   "This resource is compliant with the rule."
                   "2016-06-13T10:00:00.000Z"];
      PutEvaluations [Evaluation "AWS::EC2::Instance" "i-0" "COMPLIANT"
                        "This resource is compliant with the rule."
                        "2016-06-13T10:00:00.000Z"] "token"],
     Ok tt).
Proof.
  split.
  - destruct (instance_trigger_outcome two_instances
                (invocation "AWS::EC2::Instance" "instanceId" "i-1") "i-1")
      as [Hfails _]; [reflexivity | reflexivity |].
    apply Hfails. simpl. discriminate.
  - destruct (instance_trigger_outcome two_instances
                (invocation "AWS::EC2::Instance" "instanceId" "i-0") "i-0")
      as [_ Hempty]; [reflexivity | reflexivity |].
    apply Hempty. reflexivity.
Defined.

(** C2.  The instance branch on an instance with one group attached: the
    scope is never built, [set(groups)] raises [TypeError]. *)
Theorem instance_scope_raises :
  trigger_scope two_instances
    (configurationItem
       (invokingEvent (invocation "AWS::EC2::Instance" "instanceId" "i-1")))
  = ([InstanceSecurityGroups "i-1"], Raise TypeError).
Proof. reflexivity. Qed.

(** ** The handler, step by step *)

Lemma lambda_handler_run (ec2 : directory) (event : event) :
  lambda_handler ec2 event =
  match evaluate_compliance ec2 (configurationItem (invokingEvent event))
          (ruleParameters event) with
  | (log, Ok evaluations) =>
      match output_evaluation (configurationItem (invokingEvent event))
              evaluations with
      | Ok records =>
          (log ++ [PrintJson records; PutEvaluations records (token_of event)],
           if forallb accepted records then Ok tt
           else Raise ParamValidationError)
      | Raise e => (log, Raise e)
      end
  | (log, Raise e) => (log, Raise e)
  end.
Proof.
  unfold lambda_handler, put_evaluations, token_of.
  destruct (evaluate_compliance _ _ _) as [log [evaluations|e]]; [|reflexivity].
  cbn. destruct (output_evaluation _ _) as [records|e]; cbn;
    [reflexivity | now rewrite app_nil_r].
Qed.

Lemma submitted_bind {A B : Type} (m : M A) (k : A -> M B) :
  submitted (x <- m ;; k x) =
  submitted m ++ match outcome m with
                 | Ok a => submitted (k a)
                 | Raise _ => []
                 end.
Proof.
  unfold submitted. rewrite calls_bind, flat_map_app.
  destruct (outcome m); reflexivity.
Qed.

Lemma submitted_foldM {S X : Type} (body : S -> X -> M S) (xs : list X)
  (acc : S) :
  (forall acc x, submitted (body acc x) = []) ->
  submitted (foldM body xs acc) = [].
Proof.
  intros Hbody. revert acc. induction xs as [|x xs IH]; intros acc;
    [reflexivity|].
  cbn [foldM]. rewrite submitted_bind, Hbody.
  destruct (outcome (body acc x)); [apply IH | reflexivity].
Qed.

Lemma submitted_lookups (ids : list string) (log : list call) :
  flat_map (fun c => match c with
                     | PutEvaluations records _ => [records]
                     | _ => []
                     end) (log ++ map InstanceSecurityGroups ids) =
  flat_map (fun c => match c with
                     | PutEvaluations records _ => [records]
                     | _ => []
                     end) log.
Proof.
  rewrite flat_map_app. induction ids as [|i ids IH]; cbn in *;
    [now rewrite app_nil_r | exact IH].
Qed.

Lemma submitted_getViolationGroups (ec2 : directory) (c : collection)
  (forbiddenPorts : dict string) :
  submitted (getViolationGroups ec2 c forbiddenPorts) = [].
Proof.
  unfold getViolationGroups. apply submitted_foldM. intros acc x.
  unfold securityGroupIpPermissions, request.
  destruct x as [id|g]; [|reflexivity].
  rewrite bind_ok. unfold submitted. cbn [calls fst app flat_map].
  unfold lift. destruct (find_violation _ _) as [[]|e]; reflexivity.
Qed.

Lemma submitted_trigger_scope (ec2 : directory) (item : configuration_item) :
  submitted (trigger_scope ec2 item) = [].
Proof.
  unfold trigger_scope, getitem, lift.
  destruct (String.eqb (resourceType item) "AWS::EC2::SecurityGroup").
  - destruct (dict_get "groupId" (configuration item)) as [g|]; [|reflexivity].
    rewrite bind_ok, determineEvaluationScope_run, bind_ok.
    unfold submitted. cbn [calls outcome fst snd ret app].
    rewrite app_nil_r.
    apply (submitted_lookups _ [DescribeInstances g]).
  - destruct (String.eqb (resourceType item) "AWS::EC2::Instance");
      [|reflexivity].
    destruct (dict_get "instanceId" (configuration item)) as [i|]; [|reflexivity].
    unfold secGroupsForInstanceId, request. rewrite bind_ok, bind_ok.
    destruct (set_of _); reflexivity.
Qed.

Lemma submitted_evaluate_compliance (ec2 : directory)
  (item : configuration_item) (rule_parameters : dict string) :
  submitted (evaluate_compliance ec2 item rule_parameters) = [].
Proof.
  unfold evaluate_compliance.
  rewrite submitted_bind, submitted_trigger_scope.
  destruct (outcome (trigger_scope ec2 item)) as [[sc|]|e]; try reflexivity.
  cbn [app]. rewrite submitted_bind, submitted_getViolationGroups.
  destruct (outcome (getViolationGroups _ _ _)); [|reflexivity].
  unfold lift. cbn [app]. destruct (violation_instances _ _); reflexivity.
Qed.

(** What the handler submits, and how it ends. *)
Lemma lambda_handler_submits (ec2 : directory) (event : event) :
  submitted (lambda_handler ec2 event) =
  match outcome (evaluate_compliance ec2 (configurationItem (invokingEvent event))
                   (ruleParameters event)) with
  | Ok evaluations =>
      match output_evaluation (configurationItem (invokingEvent event))
              evaluations with
      | Ok records => [records]
      | Raise _ => []
      end
  | Raise _ => []
  end.
Proof.
  rewrite lambda_handler_run.
  pose proof (submitted_evaluate_compliance ec2
                (configurationItem (invokingEvent event)) (ruleParameters event))
    as Hnone.
  destruct (evaluate_compliance _ _ _) as [log [evaluations|e]];
    cbn [outcome snd]; [|exact Hnone].
  destruct (output_evaluation _ _) as [records|e]; [|exact Hnone].
  unfold submitted in *. cbn [calls fst] in *.
  rewrite flat_map_app, Hnone. reflexivity.
Qed.

Lemma lambda_handler_outcome (ec2 : directory) (event : event) :
  outcome (lambda_handler ec2 event) =
  (evaluations <-
     outcome (evaluate_compliance ec2 (configurationItem (invokingEvent event))
                (ruleParameters event)) ;;;
   records <-
     output_evaluation (configurationItem (invokingEvent event)) evaluations ;;;
   if forallb accepted records then Ok tt else Raise ParamValidationError).
Proof.
  rewrite lambda_handler_run.
  destruct (evaluate_compliance _ _ _) as [log [evaluations|e]];
    cbn [outcome snd rbind]; [|reflexivity].
  destruct (output_evaluation _ _); reflexivity.
Qed.

(** ** The loops of the evaluator *)

Lemma rfold_ext {S X : Type} (f g : S -> X -> result S) (xs : list X) (acc : S) :
  (forall a x, f a x = g a x) -> rfold f xs acc = rfold g xs acc.
Proof.
  intros H. revert acc. induction xs as [|x xs IH]; intros acc; [reflexivity|].
  cbn. rewrite H. destruct (g acc x); cbn; [apply IH | reflexivity].
Qed.

Lemma outcome_getViolationGroups (ec2 : directory) (c : collection)
  (forbiddenPorts : dict string) :
  outcome (getViolationGroups ec2 c forbiddenPorts) =
  rfold (fun violations g =>
           v <- group_violates ec2 forbiddenPorts g ;;;
           Ok (if v : bool then violations ++ [g] else violations))
        (items c) [].
Proof.
  unfold getViolationGroups. rewrite outcome_foldM. apply rfold_ext.
  intros violations g. rewrite outcome_bind. unfold group_violates.
  destruct (outcome (securityGroupIpPermissions ec2 g)) as [permissions|e];
    [|reflexivity].
  cbn [rbind]. rewrite outcome_bind. reflexivity.
Qed.

(** Either every group gets a verdict and the violating ones are kept in
    order, or the first failure ends the loop. *)
Lemma violations_cases (f : value -> result bool) (l acc : list value)
  (e : exception) :
  (forall g e', In g l -> f g = Raise e' -> e' = e) ->
  (rfold (fun violations g =>
            v <- f g ;;; Ok (if v : bool then violations ++ [g] else violations))
         l acc = Ok (acc ++ filter (fun g => holds (f g)) l) /\
   forall g, In g l -> exists b, f g = Ok b) \/
  (rfold (fun violations g =>
            v <- f g ;;; Ok (if v : bool then violations ++ [g] else violations))
         l acc = Raise e /\
   exists g, In g l /\ f g = Raise e).
Proof.
  revert acc. induction l as [|g l IH]; intros acc Hone.
  - left. split; [cbn; now rewrite app_nil_r | intros g []].
  - cbn [rfold filter]. destruct (f g) as [b|e'] eqn:Hg.
    + cbn [rbind holds].
      destruct (IH (if b then acc ++ [g] else acc)) as [[Hok Hall]|[Hbad Hex]].
      * intros h e' Hh. apply Hone. now right.
      * left. split.
        -- rewrite Hok. destruct b; [now rewrite <- app_assoc | reflexivity].
        -- intros h [<-|Hh]; eauto.
      * right. split; [exact Hbad|]. destruct Hex as [h [Hh Hf]].
        exists h. split; [now right | exact Hf].
    + right. assert (e' = e) as -> by (apply (Hone g); [now left | exact Hg]).
      split; [reflexivity|]. exists g. split; [now left | exact Hg].
Qed.

Lemma expand_range_raises (ports : string) (e : exception) :
  expand_range ports = Raise e -> e = ValueError.
Proof.
  unfold expand_range.
  destruct (split_shape ports) as [[-> _]|[-> (lower & upper & rest & ->)]].
  - destruct (int_cases ports) as [[n ->]| ->]; cbn; congruence.
  - cbn. destruct (int_cases lower) as [[l ->]| ->]; cbn; [|congruence].
    destruct (int_cases upper) as [[u ->]| ->]; cbn; congruence.
Qed.

Lemma find_violation_loop_raises (exposed_ports : list Z)
  (forbidden_ports : dict string) (remaining : list string) (e : exception) :
  (forall label, In label remaining -> In label (keys forbidden_ports)) ->
  find_violation_loop exposed_ports forbidden_ports remaining = Raise e ->
  e = ValueError.
Proof.
  induction remaining as [|label rest IH]; intros Hsub; cbn; [discriminate|].
  destruct (In_keys_dict_get label forbidden_ports) as [spec Hget];
    [apply Hsub; now left|].
  unfold getitem. rewrite Hget. cbn [rbind].
  destruct (expand_range spec) as [ports|e'] eqn:Hexp; cbn [rbind].
  - destruct (existsb _ ports); [discriminate|].
    apply IH. intros l Hl. apply Hsub. now right.
  - intros [= <-]. now apply expand_range_raises in Hexp.
Qed.

Lemma group_violates_raises (ec2 : directory) (forbiddenPorts : dict string)
  (id : string) (e : exception) :
  group_violates ec2 forbiddenPorts (Str id) = Raise e -> e = ValueError.
Proof.
  unfold group_violates. cbn. unfold find_violation.
  apply find_violation_loop_raises. auto.
Qed.

Lemma dict_set_absent {V : Type} (k : string) (v : V) (d : dict V) :
  ~ In k (keys d) -> dict_set k v d = d ++ [(k, v)].
Proof.
  induction d as [|[k' v'] d IH]; cbn; [reflexivity|].
  intros Hnot. destruct (String.eqb_spec k k') as [->|Hne].
  - exfalso. apply Hnot. now left.
  - rewrite IH; [reflexivity|]. intros H. apply Hnot. now right.
Qed.

(** The loop over the violating groups, for one instance. *)
Lemma violation_row_loop (d : dict collection) (instance : string)
  (c : collection) (vs : list value) (vi : dict (list value))
  (listed : list value) :
  dict_get instance d = Some c ->
  (forall g, In g vs -> member g c = Ok (mem g (items c))) ->
  dict_get instance vi = Some listed ->
  rfold (fun violationInstances group =>
           attached <- getitem d instance ;;;
           found <- member group attached ;;;
           if found : bool then
             listed <- getitem violationInstances instance ;;;
             Ok (dict_set instance (listed ++ [group]) violationInstances)
           else Ok violationInstances)
        vs vi =
  Ok (dict_set instance
        (listed ++ filter (fun g => mem g (items c)) vs) vi).
Proof.
  intros Hd. revert vi listed.
  induction vs as [|g vs IH]; intros vi listed Hmem Hvi.
  - cbn. now rewrite app_nil_r, dict_set_same.
  - cbn [rfold filter]. unfold getitem at 1. rewrite Hd. cbn [rbind].
    rewrite (Hmem g) by now left. cbn [rbind].
    destruct (mem g (items c)).
    + unfold getitem at 1. rewrite Hvi. cbn [rbind].
      rewrite (IH _ (listed ++ [g])).
      * now rewrite dict_set_set, <- app_assoc.
      * intros h Hh. apply Hmem. now right.
      * apply dict_get_set_eq.
    + apply IH; [|exact Hvi]. intros h Hh. apply Hmem. now right.
Qed.

Lemma keys_app {V : Type} (d d' : dict V) : keys (d ++ d') = keys d ++ keys d'.
Proof. unfold keys. apply map_app. Qed.

(** The loop over the instances of the scope. *)
Lemma violation_rows (d : dict collection) (vs : list value)
  (rest : dict collection) (acc : dict (list value)) :
  (forall k c, In (k, c) rest ->
     dict_get k d = Some c /\
     forall g, In g vs -> member g c = Ok (mem g (items c))) ->
  NoDup (keys rest) ->
  (forall k, In k (keys rest) -> ~ In k (keys acc)) ->
  rfold (fun violationInstances instance =>
           rfold (fun violationInstances group =>
                    attached <- getitem d instance ;;;
                    found <- member group attached ;;;
                    if found : bool then
                      listed <- getitem violationInstances instance ;;;
                      Ok (dict_set instance (listed ++ [group]) violationInstances)
                    else Ok violationInstances)
                 vs (dict_set instance [] violationInstances))
        (keys rest) acc =
  Ok (acc ++ map (violation_row vs) rest).
Proof.
  revert acc. induction rest as [|[k c] rest IH]; intros acc Hrows Hnd Hfresh.
  - cbn. now rewrite app_nil_r.
  - cbn [keys map fst rfold]. inversion Hnd as [|? ? Hk Hnd']; subst.
    destruct (Hrows k c (or_introl eq_refl)) as [Hd Hmem].
    rewrite (violation_row_loop d k c vs _ []); [|exact Hd|exact Hmem|apply dict_get_set_eq].
    cbn [rbind app]. rewrite dict_set_set.
    rewrite dict_set_absent by (apply Hfresh; now left).
    fold (keys rest). rewrite IH.
    + now rewrite <- app_assoc.
    + intros k' c' H. apply Hrows. now right.
    + exact Hnd'.
    + intros k' Hk' Hin. rewrite keys_app in Hin. apply in_app_iff in Hin.
      destruct Hin as [Hin|[<-|[]]].
      * apply (Hfresh k'); [now right | exact Hin].
      * exact (Hk Hk').
Qed.

Lemma violation_instances_rows (d : dict collection) (vs : list value) :
  NoDup (keys d) ->
  (forall k c g, In (k, c) d -> In g vs -> member g c = Ok (mem g (items c))) ->
  violation_instances d vs = Ok (map (violation_row vs) d).
Proof.
  intros Hnd Hmem. unfold violation_instances.
  rewrite (violation_rows d vs d []); [reflexivity| |exact Hnd|auto].
  intros k c Hin. split; [now apply In_dict_get | eauto].
Qed.

(** ** The records *)

Lemma strings_names (groups : list value) :
  identifiers groups -> strings groups = Ok (names groups).
Proof.
  induction groups as [|g groups IH]; intros Hids; [reflexivity|].
  destruct (Hids g (or_introl eq_refl)) as [s ->]. cbn.
  rewrite IH; [reflexivity|]. intros v Hv. apply Hids. now right.
Qed.

Lemma names_Str (ids : list string) : names (map Str ids) = ids.
Proof.
  unfold names. induction ids as [|i ids IH]; cbn; [reflexivity | now rewrite IH].
Qed.

Lemma identifiers_Str (ids : list string) : identifiers (map Str ids).
Proof.
  intros v Hv. apply in_map_iff in Hv. destruct Hv as [s [<- _]]. eauto.
Qed.

(** The loop of the reporter over the instances. *)
Lemma output_rows (item : configuration_item)
  (evaluations rest : dict (list value)) (acc : list evaluation) :
  (forall k groups, In (k, groups) rest ->
     dict_get k evaluations = Some groups /\ identifiers groups) ->
  rfold (fun outputEvaluation evaluation =>
           groups <- getitem evaluations evaluation ;;;
           if (0 <? length groups)%nat then
             names <- str_join "," groups ;;;
             Ok (outputEvaluation ++
                 [Evaluation "AWS::EC2::Instance" evaluation "NON_COMPLIANT"
                    ("Instance has non compliant groups " ++ names)%string
                    (configurationItemCaptureTime item)])
           else
             Ok (outputEvaluation ++
                 [Evaluation "AWS::EC2::Instance" evaluation "COMPLIANT"
                    "This resource is compliant with the rule."
                    (configurationItemCaptureTime item)]))
        (keys rest) acc =
  Ok (acc ++ map (record_of item) rest).
Proof.
  revert acc. induction rest as [|[k groups] rest IH]; intros acc Hrows.
  - cbn. now rewrite app_nil_r.
  - cbn [keys map fst rfold].
    destruct (Hrows k groups (or_introl eq_refl)) as [Hget Hids].
    unfold getitem at 1. rewrite Hget. cbn [rbind]. fold (keys rest).
    unfold record_of at 1. cbn [fst snd].
    destruct (0 <? length groups)%nat.
    + unfold str_join. rewrite (strings_names _ Hids). cbn [rbind].
      rewrite IH by (intros k' g' H; apply Hrows; now right).
      now rewrite <- app_assoc.
    + cbn [rbind]. rewrite IH by (intros k' g' H; apply Hrows; now right).
      now rewrite <- app_assoc.
Qed.

Lemma output_evaluation_rows (item : configuration_item)
  (rows : dict (list value)) :
  rows <> [] ->
  NoDup (keys rows) ->
  (forall k groups, In (k, groups) rows -> identifiers groups) ->
  output_evaluation item (Some rows) = Ok (map (record_of item) rows).
Proof.
  intros Hsome Hnd Hids. destruct rows as [|row rows]; [contradiction|].
  unfold output_evaluation.
  rewrite (output_rows item (row :: rows) (row :: rows) []); [reflexivity|].
  intros k groups Hin. split; [now apply In_dict_get | eauto].
Qed.

Lemma records_accepted (item : configuration_item) (rows : dict (list value)) :
  forallb accepted (map (record_of item) rows) = true.
Proof.
  induction rows as [|row rows IH]; [reflexivity|]. cbn [map forallb].
  rewrite IH. unfold record_of.
  destruct (0 <? length (snd row))%nat; reflexivity.
Qed.

Lemma no_record_about (item : configuration_item) (rows : dict (list value))
  (instance : string) :
  ~ In instance (keys rows) ->
  filter (about instance) (map (record_of item) rows) = [].
Proof.
  induction rows as [|[k groups] rows IH]; intros Hnot; [reflexivity|].
  cbn [map filter].
  assert (about instance (record_of item (k, groups)) = false) as ->.
  { unfold record_of. cbn [fst snd].
    destruct (0 <? length groups)%nat; cbn; apply String.eqb_neq;
      intros ->; apply Hnot; now left. }
  apply IH. intros H. apply Hnot. now right.
Qed.

Lemma one_record_about (item : configuration_item) (rows : dict (list value))
  (instance : string) (groups : list value) :
  NoDup (keys rows) ->
  In (instance, groups) rows ->
  filter (about instance) (map (record_of item) rows)
  = [record_of item (instance, groups)].
Proof.
  induction rows as [|[k gs] rows IH]; intros Hnd Hin; [destruct Hin|].
  inversion Hnd as [|? ? Hk Hnd']; subst. cbn [map filter].
  destruct Hin as [[= -> ->]|Hin].
  - assert (about instance (record_of item (instance, groups)) = true) as ->.
    { unfold record_of. cbn [fst snd].
      destruct (0 <? length groups)%nat; cbn; apply String.eqb_refl. }
    now rewrite no_record_about.
  - assert (about instance (record_of item (k, gs)) = false) as ->.
    { unfold record_of. cbn [fst snd].
      destruct (0 <? length gs)%nat; cbn; apply String.eqb_neq;
        intros ->; apply Hk; unfold keys; apply in_map_iff;
        now exists (instance, groups). }
    now apply IH.
Qed.

(** C7.  Whenever [evaluate_compliance] returns a mapping from instances
    to lists of violating group identifiers, the handler submits one list
    of records in which every instance of the mapping has exactly one
    record: NON_COMPLIANT, annotated with the group identifiers joined by
    commas, when its list is not empty, and COMPLIANT with the fixed
    annotation otherwise; the timestamp of the record is the capture time
    of the configuration item, unchanged. *)
Theorem one_record_per_instance (ec2 : directory) (event : event)
  (rows : dict (list string)) :
  NoDup (keys rows) ->
  outcome (evaluate_compliance ec2 (configurationItem (invokingEvent event))
             (ruleParameters event))
  = Ok (Some (map (fun row => (fst row, map Str (snd row))) rows)) ->
  exists records,
    submitted (lambda_handler ec2 event) = [records] /\
    forall instance groups,
      In (instance, groups) rows ->
      filter (about instance) records =
      [match groups with
       | [] =>
           Evaluation "AWS::EC2::Instance" instance "COMPLIANT"
             "This resource is compliant with the rule."
             (configurationItemCaptureTime
                (configurationItem (invokingEvent event)))
       | _ :: _ =>
           Evaluation "AWS::EC2::Instance" instance "NON_COMPLIANT"
             ("Instance has non compliant groups " ++ join "," groups)%string
             (configurationItemCaptureTime
                (configurationItem (invokingEvent event)))
       end].
Proof.
  intros Hnd Hrun. rewrite lambda_handler_submits, Hrun.
  destruct rows as [|row rows].
  - eexists. split; [reflexivity|]. intros instance groups [].
  - set (all := row :: rows) in *.
    rewrite output_evaluation_rows.
    + eexists. split; [reflexivity|]. intros instance groups Hin.
      rewrite (one_record_about _ _ instance (map Str groups)).
      * unfold record_of. cbn [fst snd]. rewrite names_Str.
        destruct groups; reflexivity.
      * unfold keys. rewrite map_map. exact Hnd.
      * apply in_map_iff. now exists (instance, groups).
    + discriminate.
    + unfold keys. rewrite map_map. exact Hnd.
    + intros k groups Hin. apply in_map_iff in Hin.
      destruct Hin as [[k' ids] [[= <- <-] _]]. apply identifiers_Str.
Qed.

Lemma one_record_per_instance_witness :
  exists records,
    submitted (lambda_handler two_instances
                 (invocation "AWS::EC2::SecurityGroup" "groupId" "sg-2"))
    = [records] /\
    forall instance groups,
      In (instance, groups) [("i-2", []); ("i-3", ["sg-3"])] ->
      filter (about instance) records =
      [match groups with
       | [] =>
           Evaluation "AWS::EC2::Instance" instance "COMPLIANT"
             "This resource is compliant with the rule."
             "2016-06-13T10:00:00.000Z"
       | _ :: _ =>
           Evaluation "AWS::EC2::Instance" instance "NON_COMPLIANT"
             ("Instance has non compliant groups " ++ join "," groups)%string
             "2016-06-13T10:00:00.000Z"
       end].
Proof.
  apply (one_record_per_instance two_instances
           (invocation "AWS::EC2::SecurityGroup" "groupId" "sg-2")
           [("i-2", []); ("i-3", ["sg-3"])]).
  - repeat constructor; simpl; intuition discriminate.
  - reflexivity.
Defined.

(** ** A scope without instances *)

Lemma no_row_no_instance (ec2 : directory) (ids : list string) :
  fst (fold_left (scope_step ec2) ids ([], [])) = [] -> ids = [].
Proof.
  intros Hnone. destruct ids as [|i ids]; [reflexivity|].
  assert (In i (keys (fst (fold_left (scope_step ec2) (i :: ids) ([], [])))))
    as Hin by (apply scope_steps_keys; right; now left).
  rewrite Hnone in Hin. destruct Hin.
Qed.

Lemma trigger_scope_empty (ec2 : directory) (item : configuration_item)
  (sc : scope) :
  outcome (trigger_scope ec2 item) = Ok (Some sc) ->
  instancesToEvaluate sc = [] ->
  items (secGroupsToCheck sc) = [].
Proof.
  unfold trigger_scope, getitem, lift.
  destruct (String.eqb (resourceType item) "AWS::EC2::SecurityGroup").
  - destruct (dict_get "groupId" (configuration item)) as [g|];
      [|discriminate].
    rewrite bind_ok, determineEvaluationScope_run, bind_ok.
    cbn [outcome snd ret]. intros [= <-]. cbn [instancesToEvaluate secGroupsToCheck items].
    intros Hnone. apply no_row_no_instance in Hnone. now rewrite Hnone.
  - destruct (String.eqb (resourceType item) "AWS::EC2::Instance");
      [|discriminate].
    destruct (dict_get "instanceId" (configuration item)) as [i|];
      [|discriminate].
    unfold secGroupsForInstanceId, request. rewrite bind_ok, bind_ok.
    destruct (set_of _); [|discriminate].
    cbn. intros [= <-]. discriminate.
Qed.

(** C10.  When the scope computed for a supported resource type holds no
    instance (a security group that no instance uses), the mapping returned
    by [evaluate_compliance] is empty, the handler takes it for [False] and
    hands to [put_evaluations] one NOT_APPLICABLE record that names the
    resource type, instead of no record.  That record lacks the keys of an
    evaluation, so the call is refused and the handler ends with
    [ParamValidationError]. *)
Theorem empty_scope_not_applicable (ec2 : directory) (event : event)
  (sc : scope) :
  outcome (trigger_scope ec2 (configurationItem (invokingEvent event)))
  = Ok (Some sc) ->
  instancesToEvaluate sc = [] ->
  outcome (evaluate_compliance ec2 (configurationItem (invokingEvent event))
             (ruleParameters event)) = Ok (Some []) /\
  submitted (lambda_handler ec2 event) =
  [[Notice "NOT_APPLICABLE"
      ("The rule doesn't apply to resources of type " ++
       resourceType (configurationItem (invokingEvent event)) ++ ".")%string]] /\
  outcome (lambda_handler ec2 event) = Raise ParamValidationError.
Proof.
  intros Hscope Hnone.
  pose proof (trigger_scope_empty _ _ _ Hscope Hnone) as Hgroups.
  assert (outcome (evaluate_compliance ec2
                     (configurationItem (invokingEvent event))
                     (ruleParameters event)) = Ok (Some [])) as Hrun.
  { unfold evaluate_compliance. rewrite outcome_bind, Hscope. cbn [rbind].
    rewrite outcome_bind, outcome_getViolationGroups, Hgroups, Hnone.
    reflexivity. }
  split; [exact Hrun|].
  rewrite lambda_handler_outcome, lambda_handler_submits, Hrun.
  split; reflexivity.
Qed.

Lemma empty_scope_not_applicable_witness :
  outcome (evaluate_compliance empty_account
             (configurationItem
                (invokingEvent
                   (invocation "AWS::EC2::SecurityGroup" "groupId" "sg-1")))
             [("web", "80")]) = Ok (Some []) /\
  submitted (lambda_handler empty_account
               (invocation "AWS::EC2::SecurityGroup" "groupId" "sg-1")) =
  [[Notice "NOT_APPLICABLE"
      "The rule doesn't apply to resources of type AWS::EC2::SecurityGroup."]] /\
  outcome (lambda_handler empty_account
             (invocation "AWS::EC2::SecurityGroup" "groupId" "sg-1"))
  = Raise ParamValidationError.
Proof.
  apply (empty_scope_not_applicable empty_account
           (invocation "AWS::EC2::SecurityGroup" "groupId" "sg-1")
           {| instancesToEvaluate := []; secGroupsToCheck := PySet [] |});
    reflexivity.
Defined.

(** ** Two runs on the same account *)

Lemma filter_Permutation {A : Type} (f : A -> bool) (l l' : list A) :
  Permutation l l' -> Permutation (filter f l) (filter f l').
Proof.
  induction 1 as [|x l l' _ IH|x y l|l l' l'' _ IH1 _ IH2]; cbn.
  - constructor.
  - destruct (f x); [now constructor | exact IH].
  - destruct (f x), (f y); try reflexivity. constructor.
  - now transitivity (filter f l').
Qed.

Lemma mem_Permutation (g : value) (l l' : list value) :
  Permutation l l' -> mem g l = mem g l'.
Proof.
  intros Hp. destruct (mem g l) eqn:E, (mem g l') eqn:E'; try reflexivity.
  - apply mem_In in E. apply (Permutation_in _ Hp) in E.
    apply mem_In in E. congruence.
  - apply mem_In in E'. apply (Permutation_in _ (Permutation_sym Hp)) in E'.
    apply mem_In in E'. congruence.
Qed.

Lemma identifiers_Permutation (l l' : list value) :
  Permutation l l' -> identifiers l -> identifiers l'.
Proof.
  intros Hp Hids v Hv. apply Hids.
  exact (Permutation_in _ (Permutation_sym Hp) Hv).
Qed.

Lemma identifiers_filter (f : value -> bool) (l : list value) :
  identifiers l -> identifiers (filter f l).
Proof. intros Hids v Hv. apply filter_In in Hv. now apply Hids. Qed.

Lemma group_ids_Permutation (a b : directory) (i : string) :
  same_snapshot a b -> Permutation (group_ids a i) (group_ids b i).
Proof. intros (_ & Hg & _). unfold group_ids. apply Permutation_map, Hg. Qed.

Lemma identifiers_group_ids (ec2 : directory) (i : string) :
  identifiers (group_ids ec2 i).
Proof.
  intros v Hv. apply in_map_iff in Hv. destruct Hv as [g [<- _]]. eauto.
Qed.

Lemma attached_instances_same (a b : directory) (g : string) :
  same_snapshot a b -> attached_instances a g = attached_instances b g.
Proof. intros (Hd & _ & _). unfold attached_instances. now rewrite Hd. Qed.

Lemma group_violates_same (a b : directory) (forbiddenPorts : dict string)
  (g : value) :
  same_snapshot a b ->
  group_violates a forbiddenPorts g = group_violates b forbiddenPorts g.
Proof.
  intros (_ & _ & Hp). unfold group_violates. destruct g as [id|]; cbn;
    [now rewrite Hp | reflexivity].
Qed.

Lemma dict_set_alike (k : string) (l l' : list value) (d d' : dict collection) :
  Forall2 entry_alike d d' -> Permutation l l' ->
  Forall2 entry_alike (dict_set k (PyList l) d) (dict_set k (PyList l') d').
Proof.
  intros Hd Hl. induction Hd as [|[k1 c1] [k2 c2] d d' [Hk Hc] Hd IH]; cbn.
  - constructor; [|constructor]. split; [reflexivity|].
    exists l, l'. auto.
  - cbn in Hk. subst k2. destruct (String.eqb k k1).
    + constructor; [|exact Hd]. split; [reflexivity|].
      exists l, l'. auto.
    + constructor; [|exact IH]. split; [reflexivity | exact Hc].
Qed.

Lemma scope_steps_alike (a b : directory) (ids : list string)
  (found found' : dict collection * list value) :
  same_snapshot a b ->
  Forall2 entry_alike (fst found) (fst found') ->
  Forall2 entry_alike (fst (fold_left (scope_step a) ids found))
                      (fst (fold_left (scope_step b) ids found')).
Proof.
  intros Hsame. revert found found'.
  induction ids as [|i ids IH]; intros found found' Hd; [exact Hd|].
  cbn [fold_left]. apply IH. cbn [scope_step fst].
  apply dict_set_alike; [exact Hd | now apply group_ids_Permutation].
Qed.

Lemma scope_steps_identifiers (ec2 : directory) (ids : list string) :
  identifiers (snd (fold_left (scope_step ec2) ids ([], []))).
Proof.
  intros v Hv. apply scope_steps_set in Hv.
  destruct Hv as [[]|[i [_ Hv]]]. exact (identifiers_group_ids _ _ _ Hv).
Qed.

Lemma scope_steps_sets (a b : directory) (ids : list string) :
  same_snapshot a b ->
  Permutation (snd (fold_left (scope_step a) ids ([], [])))
              (snd (fold_left (scope_step b) ids ([], []))).
Proof.
  intros Hsame.
  apply NoDup_Permutation; try (apply scope_steps_NoDup; constructor).
  intros v. rewrite !scope_steps_set. cbn [snd In].
  split; (intros [[]|[i [Hi Hv]]]; right; exists i; split; [exact Hi|]).
  - exact (Permutation_in _ (group_ids_Permutation a b i Hsame) Hv).
  - exact (Permutation_in _ (Permutation_sym (group_ids_Permutation a b i Hsame)) Hv).
Qed.

(** The violating groups of two runs: the same failure, or the same groups
    up to their order. *)
Lemma violation_groups_alike (a b : directory) (forbiddenPorts : dict string)
  (s s' : list value) :
  same_snapshot a b -> Permutation s s' -> identifiers s ->
  (exists e,
     outcome (getViolationGroups a (PySet s) forbiddenPorts) = Raise e /\
     outcome (getViolationGroups b (PySet s') forbiddenPorts) = Raise e) \/
  (exists vs vs',
     outcome (getViolationGroups a (PySet s) forbiddenPorts) = Ok vs /\
     outcome (getViolationGroups b (PySet s') forbiddenPorts) = Ok vs' /\
     Permutation vs vs' /\ identifiers vs).
Proof.
  intros Hsame Hperm Hids. rewrite !outcome_getViolationGroups. cbn [items].
  rewrite (rfold_ext _ _ s' [] (fun violations g =>
             f_equal (fun r => v <- r ;;;
                        Ok (if v : bool then violations ++ [g] else violations))
                     (eq_sym (group_violates_same a b forbiddenPorts g Hsame)))).
  set (f := group_violates a forbiddenPorts).
  assert (forall l, identifiers l ->
            forall g e', In g l -> f g = Raise e' -> e' = ValueError) as Herr.
  { intros l Hl g e' Hg Hf. destruct (Hl g Hg) as [id ->].
    exact (group_violates_raises _ _ _ _ Hf). }
  destruct (violations_cases f s [] ValueError (Herr s Hids))
    as [[Hok Hall]|[Hbad [g [Hg Hf]]]];
  destruct (violations_cases f s' [] ValueError
              (Herr s' (identifiers_Permutation _ _ Hperm Hids)))
    as [[Hok' Hall']|[Hbad' [g' [Hg' Hf']]]].
  - right. exists (filter (fun g => holds (f g)) s),
                  (filter (fun g => holds (f g)) s').
    repeat split; [exact Hok | exact Hok' | now apply filter_Permutation |].
    now apply identifiers_filter.
  - destruct (Hall g') as [v Hv];
      [exact (Permutation_in _ (Permutation_sym Hperm) Hg') | congruence].
  - destruct (Hall' g) as [v Hv];
      [exact (Permutation_in _ Hperm Hg) | congruence].
  - left. exists ValueError. split; assumption.
Qed.

Lemma keys_alike (d d' : dict collection) :
  Forall2 entry_alike d d' -> keys d = keys d'.
Proof.
  unfold keys. induction 1 as [|e e' d d' [Hk _] _ IH]; cbn; [reflexivity|].
  now rewrite Hk, IH.
Qed.

(** The rows of two runs differ by the order of their groups only. *)
Lemma violation_rows_alike (d d' : dict collection) (vs vs' : list value) :
  Forall2 entry_alike d d' -> Permutation vs vs' -> identifiers vs ->
  Forall2 row_alike (map (violation_row vs) d) (map (violation_row vs') d').
Proof.
  intros Hd Hvs Hids.
  induction Hd as [|[k c] [k' c'] d d' [Hk (l & l' & Hc & Hc' & Hl)] _ IH];
    cbn [map]; constructor; [|exact IH].
  cbn in Hk, Hc, Hc'. subst k' c c'. unfold violation_row, row_alike. cbn.
  split; [reflexivity|]. split; [|now apply identifiers_filter].
  rewrite (filter_ext _ (fun g => mem g l')) by
    (intros g; now apply mem_Permutation).
  now apply filter_Permutation.
Qed.

Lemma violation_instances_alike (d : dict collection) (vs : list value) :
  NoDup (keys d) ->
  (forall e, In e d -> exists l, snd e = PyList l) ->
  violation_instances d vs = Ok (map (violation_row vs) d).
Proof.
  intros Hnd Hlists. apply violation_instances_rows; [exact Hnd|].
  intros k c g Hin _. destruct (Hlists (k, c) Hin) as [l Hl].
  cbn in Hl. subst c. reflexivity.
Qed.

Lemma names_Permutation (l l' : list value) :
  Permutation l l' -> Permutation (names l) (names l').
Proof. intros Hp. unfold names. now apply Permutation_flat_map. Qed.

Lemma record_of_alike (item : configuration_item) (r r' : string * list value) :
  row_alike r r' -> same_record (record_of item r) (record_of item r').
Proof.
  intros (Hk & Hp & _). unfold record_of.
  rewrite <- (Permutation_length Hp), <- Hk.
  destruct (0 <? length (snd r))%nat; cbn; repeat split; auto.
  right. exists (names (snd r)), (names (snd r')).
  split; [now apply names_Permutation | split; reflexivity].
Qed.

Lemma outcome_evaluate_compliance (ec2 : directory) (item : configuration_item)
  (rule_parameters : dict string) :
  outcome (evaluate_compliance ec2 item rule_parameters) =
  (found <- outcome (trigger_scope ec2 item) ;;;
   match found with
   | None => Ok None
   | Some sc =>
       violationGroups <-
         outcome (getViolationGroups ec2 (secGroupsToCheck sc) rule_parameters) ;;;
       violationInstances <-
         violation_instances (instancesToEvaluate sc) violationGroups ;;;
       Ok (Some violationInstances)
   end).
Proof.
  unfold evaluate_compliance. rewrite outcome_bind.
  destruct (outcome (trigger_scope ec2 item)) as [[sc|]|e]; cbn [rbind];
    try reflexivity.
  rewrite outcome_bind.
  destruct (outcome (getViolationGroups _ _ _)) as [vs|e]; cbn [rbind];
    [|reflexivity].
  rewrite outcome_bind. unfold lift. cbn [outcome snd].
  destruct (violation_instances _ _); reflexivity.
Qed.

Lemma outcome_trigger_scope (ec2 : directory) (item : configuration_item) :
  outcome (trigger_scope ec2 item) =
  if String.eqb (resourceType item) "AWS::EC2::SecurityGroup" then
    g <- getitem (configuration item) "groupId" ;;;
    Ok (Some {| instancesToEvaluate :=
                  fst (fold_left (scope_step ec2) (attached_instances ec2 g)
                         ([], []));
                secGroupsToCheck :=
                  PySet (snd (fold_left (scope_step ec2)
                                (attached_instances ec2 g) ([], []))) |})
  else if String.eqb (resourceType item) "AWS::EC2::Instance" then
    i <- getitem (configuration item) "instanceId" ;;;
    groupSet <- set_of (map Dict (security_groups ec2 i)) ;;;
    Ok (Some {| secGroupsToCheck := PyList (map Dict (security_groups ec2 i));
                instancesToEvaluate := [(i, PySet groupSet)] |})
  else Ok None.
Proof.
  unfold trigger_scope, lift.
  destruct (String.eqb (resourceType item) "AWS::EC2::SecurityGroup").
  - destruct (getitem (configuration item) "groupId") as [g|e]; [|reflexivity].
    now rewrite bind_ok, determineEvaluationScope_run, bind_ok.
  - destruct (String.eqb (resourceType item) "AWS::EC2::Instance");
      [|reflexivity].
    destruct (getitem (configuration item) "instanceId") as [i|e]; [|reflexivity].
    unfold secGroupsForInstanceId, request. rewrite bind_ok, bind_ok.
    cbn [rbind outcome snd]. destruct (set_of _); reflexivity.
Qed.

Lemma set_of_groups (groups : list group) :
  set_of (map Dict groups) =
  match groups with
  | [] => Ok []
  | _ :: _ => Raise TypeError
  end.
Proof. destruct groups; reflexivity. Qed.

Lemma entries_are_lists (d d' : dict collection) :
  Forall2 entry_alike d d' ->
  (forall e, In e d -> exists l, snd e = PyList l) /\
  (forall e, In e d' -> exists l, snd e = PyList l).
Proof.
  induction 1 as [|e e' d d' (_ & l & l' & Hl & Hl' & _) _ [IH IH']].
  - split; intros e [].
  - split; intros x [<-|Hx]; eauto.
Qed.

Lemma keys_violation_rows (vs : list value) (d : dict collection) :
  keys (map (violation_row vs) d) = keys d.
Proof. unfold keys. rewrite map_map. reflexivity. Qed.

(** What [evaluate_compliance] returns in two runs on the same account. *)
Lemma evaluations_alike (a b : directory) (item : configuration_item)
  (rule_parameters : dict string) :
  same_snapshot a b ->
  (exists e,
     outcome (evaluate_compliance a item rule_parameters) = Raise e /\
     outcome (evaluate_compliance b item rule_parameters) = Raise e) \/
  (outcome (evaluate_compliance a item rule_parameters) = Ok None /\
   outcome (evaluate_compliance b item rule_parameters) = Ok None) \/
  (exists rows rows',
     outcome (evaluate_compliance a item rule_parameters) = Ok (Some rows) /\
     outcome (evaluate_compliance b item rule_parameters) = Ok (Some rows') /\
     NoDup (keys rows) /\ NoDup (keys rows') /\
     Forall2 row_alike rows rows').
Proof.
  intros Hsame. rewrite !outcome_evaluate_compliance, !outcome_trigger_scope.
  destruct (String.eqb (resourceType item) "AWS::EC2::SecurityGroup").
  - destruct (getitem (configuration item) "groupId") as [g|e]; cbn [rbind];
      [|left; eauto].
    rewrite <- (attached_instances_same a b g Hsame).
    set (ids := attached_instances a g).
    cbn [secGroupsToCheck instancesToEvaluate].
    pose proof (scope_steps_alike a b ids ([], []) ([], []) Hsame
                  (Forall2_nil _)) as Hd.
    destruct (entries_are_lists _ _ Hd) as [Hlists Hlists'].
    pose proof (scope_steps_NoDup_keys a ids ([], []) (NoDup_nil _)) as Hnd.
    pose proof (scope_steps_NoDup_keys b ids ([], []) (NoDup_nil _)) as Hnd'.
    destruct (violation_groups_alike a b rule_parameters _ _ Hsame
                (scope_steps_sets a b ids Hsame)
                (scope_steps_identifiers a ids))
      as [(e & -> & ->)|(vs & vs' & -> & -> & Hvs & Hids)]; cbn [rbind].
    + left. eauto.
    + right. right.
      rewrite (violation_instances_alike _ vs Hnd Hlists).
      rewrite (violation_instances_alike _ vs' Hnd' Hlists'). cbn [rbind].
      eexists. eexists. split; [reflexivity|]. split; [reflexivity|].
      rewrite !keys_violation_rows.
      split; [exact Hnd|]. split; [exact Hnd'|].
      now apply violation_rows_alike.
  - destruct (String.eqb (resourceType item) "AWS::EC2::Instance");
      [|right; left; split; reflexivity].
    destruct (getitem (configuration item) "instanceId") as [i|e]; cbn [rbind];
      [|left; eauto].
    destruct Hsame as (_ & Hgroups & _). specialize (Hgroups i).
    rewrite !set_of_groups.
    destruct (security_groups a i) as [|g gs].
    + apply Permutation_nil in Hgroups. rewrite Hgroups.
      right. right. exists [(i, [])], [(i, [])].
      split; [|split; [|split; [|split]]].
      * cbn. unfold getitem. cbn. reflexivity.
      * cbn. unfold getitem. cbn. reflexivity.
      * repeat constructor. intros [].
      * repeat constructor. intros [].
      * repeat constructor. intros v [].
    + destruct (security_groups b i) as [|g' gs'].
      * apply Permutation_sym, Permutation_nil in Hgroups. discriminate.
      * left. exists TypeError. split; reflexivity.
Qed.

Lemma rows_records (item : configuration_item)
  (rows rows' : dict (list value)) :
  Forall2 row_alike rows rows' ->
  Forall2 same_record (map (record_of item) rows) (map (record_of item) rows').
Proof.
  induction 1 as [|r r' rows rows' Hr _ IH]; cbn; constructor;
    [now apply record_of_alike | exact IH].
Qed.

Lemma rows_identifiers (rows rows' : dict (list value)) :
  Forall2 row_alike rows rows' ->
  (forall k groups, In (k, groups) rows -> identifiers groups) /\
  (forall k groups, In (k, groups) rows' -> identifiers groups).
Proof.
  induction 1 as [|[k l] [k' l'] rows rows' (_ & Hp & Hids) _ [IH IH']].
  - split; intros k groups [].
  - cbn in Hp, Hids. split; intros x groups [[= <- <-]|Hx]; eauto.
    exact (identifiers_Permutation _ _ Hp Hids).
Qed.

(** C8.  Two runs of the handler on the same invocation, against answers
    of the directory that describe the same account (the same instances for
    a group, the same rules for a group, the same groups for an instance
    though possibly listed in another order), end the same way and submit
    the same records: record by record the same instance, status and
    timestamp, and the same annotation up to the order of the group
    identifiers it lists. *)
Theorem same_snapshot_same_records (a b : directory) (event : event) :
  same_snapshot a b ->
  outcome (lambda_handler a event) = outcome (lambda_handler b event) /\
  Forall2 (Forall2 same_record)
    (submitted (lambda_handler a event)) (submitted (lambda_handler b event)).
Proof.
  intros Hsame. rewrite !lambda_handler_outcome, !lambda_handler_submits.
  set (item := configurationItem (invokingEvent event)).
  assert (Forall2 same_record
            [Notice "NOT_APPLICABLE"
               ("The rule doesn't apply to resources of type " ++
                resourceType item ++ ".")%string]
            [Notice "NOT_APPLICABLE"
               ("The rule doesn't apply to resources of type " ++
                resourceType item ++ ".")%string]) as Hna
    by (repeat constructor).
  destruct (evaluations_alike a b item (ruleParameters event) Hsame)
    as [(e & -> & ->)|[[-> ->]|(rows & rows' & -> & -> & Hnd & Hnd' & Hrows)]].
  - split; [reflexivity | constructor].
  - split; [reflexivity|]. cbn. repeat constructor.
  - destruct (rows_identifiers _ _ Hrows) as [Hids Hids'].
    destruct Hrows as [|r r' rows rows' Hr Hrows].
    + split; [reflexivity|]. cbn. repeat constructor.
    + cbn [rbind].
      rewrite !output_evaluation_rows; try assumption; try discriminate.
      cbn [rbind]. rewrite !records_accepted.
      split; [reflexivity|]. constructor; [|constructor].
      apply rows_records. now constructor.
Qed.

Lemma same_snapshot_same_records_witness :
  outcome (lambda_handler two_instances
             (invocation "AWS::EC2::SecurityGroup" "groupId" "sg-2"))
  = outcome (lambda_handler two_instances_reordered
               (invocation "AWS::EC2::SecurityGroup" "groupId" "sg-2")) /\
  Forall2 (Forall2 same_record)
    (submitted (lambda_handler two_instances
                  (invocation "AWS::EC2::SecurityGroup" "groupId" "sg-2")))
    (submitted (lambda_handler two_instances_reordered
                  (invocation "AWS::EC2::SecurityGroup" "groupId" "sg-2"))).
Proof.
  apply same_snapshot_same_records. split; [|split].
  - reflexivity.
  - intros i. simpl.
    destruct (String.eqb i "i-3") eqn:E3.
    + apply String.eqb_eq in E3. subst i. simpl. apply perm_swap.
    + apply Permutation_refl.
  - reflexivity.
Defined.

(** ** Scenarios *)

(** A group open on ports 1-100, port 80 forbidden: the instance is
    reported with the group. *)
Example open_group_reported :
  submitted (lambda_handler two_instances
               (invocation "AWS::EC2::SecurityGroup" "groupId" "sg-1"))
  = [[Evaluation "AWS::EC2::Instance" "i-1" "NON_COMPLIANT"
        "Instance has non compliant groups sg-1" "2016-06-13T10:00:00.000Z"]].
Proof. reflexivity. Qed.

(** A change of sg-2, whose rule is restricted to 10.0.0.0/8: both of its
    instances are reported, and i-3 is not compliant because of sg-3. *)
Example other_group_reported :
  lambda_handler two_instances
    (invocation "AWS::EC2::SecurityGroup" "groupId" "sg-2")
  = (let records :=
       [Evaluation "AWS::EC2::Instance" "i-2" "COMPLIANT"
          "This resource is compliant with the rule." "2016-06-13T10:00:00.000Z";
        Evaluation "AWS::EC2::Instance" "i-3" "NON_COMPLIANT"
          "Instance has non compliant groups sg-3" "2016-06-13T10:00:00.000Z"]
     in [DescribeInstances "sg-2";
         InstanceSecurityGroups "i-2"; InstanceSecurityGroups "i-3";
         SecurityGroupIpPermissions (Str "sg-2");
         SecurityGroupIpPermissions (Str "sg-3");
         PrintJson records; PutEvaluations records "token"],
     Ok tt).
Proof. reflexivity. Qed.

(** A malformed specification stops the whole evaluation. *)
Example malformed_spec_raises :
  outcome (evaluate_compliance two_instances
             (configurationItem
                (invokingEvent
                   (invocation "AWS::EC2::SecurityGroup" "groupId" "sg-2")))
             [("web", "http")]) = Raise ValueError.
Proof. reflexivity. Qed.

Example builtins_on_samples :
  range 1 4 = [1; 2; 3] /\ range 5 4 = [] /\
  split "-" "0-1024" = ["0"; "1024"] /\ split "-" "-1" = [""; "1"] /\
  int " +80 " = Ok 80 /\ int "" = Raise ValueError /\
  join "," ["sg-1"; "sg-2"] = "sg-1,sg-2" /\
  contains "0.0.0.0/0" "10.0.0.0/8" = false.
Proof. repeat split. Qed.

(** * Further properties of the script *)

(** ** Port specifications that expand *)

(** X1.  A range whose two bounds are integer literals expands to the
    integers from the first to the second, both included, whatever follows
    a second dash; a specification without a dash that is an integer
    literal expands to that one port. *)
Theorem expand_range_valid (ports : string) :
  (forall lower upper rest l u,
     split "-" ports = lower :: upper :: rest ->
     int lower = Ok l -> int upper = Ok u ->
     expand_range ports = Ok (range l (u + 1)) /\
     forall p, In p (range l (u + 1)) <-> l <= p <= u) /\
  (forall n,
     contains "-" ports = false -> int ports = Ok n ->
     expand_range ports = Ok [n]).
Proof.
  unfold expand_range. split.
  - intros lower upper rest l u Hs Hl Hu.
    rewrite (split_dashed _ _ _ _ Hs), Hs. cbn. rewrite Hl, Hu. cbn.
    split; [reflexivity|]. intros p. rewrite In_range. lia.
  - intros n -> ->. reflexivity.
Qed.

Lemma expand_range_valid_witness :
  expand_range "20-23" = Ok [20; 21; 22; 23] /\
  expand_range "1-2-x" = Ok [1; 2] /\
  expand_range "80" = Ok [80].
Proof.
  split; [|split].
  - destruct (expand_range_valid "20-23") as [H _].
    destruct (H "20" "23" [] 20 23) as [E _]; [reflexivity..|exact E].
  - destruct (expand_range_valid "1-2-x") as [H _].
    destruct (H "1" "2" ["x"] 1 2) as [E _]; [reflexivity..|exact E].
  - destruct (expand_range_valid "80") as [_ H].
    apply H; reflexivity.
Defined.

Lemma contains_dash_cons (c : ascii) (s : string) :
  contains "-" (String c s) = (Ascii.eqb c "-" || contains "-" s)%bool.
Proof.
  cbn [contains String.prefix].
  destruct (ascii_dec "-" c) as [<-|Hne].
  - now rewrite prefix_empty.
  - replace (Ascii.eqb c "-") with false
      by (symmetry; apply Ascii.eqb_neq; congruence).
    reflexivity.
Qed.

Lemma lstrip_no_dash (s : string) :
  contains "-" s = false -> contains "-" (lstrip s) = false.
Proof.
  induction s as [|c s IH]; [auto|]. intros H. cbn [lstrip].
  destruct (is_space c); [|exact H].
  rewrite contains_dash_cons in H. apply orb_false_iff in H. now apply IH.
Qed.

Lemma digit_bounds (c : ascii) (d : Z) : digit c = Some d -> 0 <= d <= 9.
Proof.
  unfold digit.
  destruct ((48 <=? Z.of_N (N_of_ascii c)) && (Z.of_N (N_of_ascii c) <=? 57))
    eqn:E; [|discriminate].
  intros [= <-]. apply andb_true_iff in E. lia.
Qed.

Lemma digits_nonneg (s : string) (acc : Z) :
  0 <= acc -> 0 <= fst (digits acc s).
Proof.
  revert acc. induction s as [|c s IH]; intros acc Hacc; [exact Hacc|].
  cbn [digits]. destruct (digit c) as [d|] eqn:E; [|exact Hacc].
  apply IH. apply digit_bounds in E. lia.
Qed.

Lemma unsigned_nonneg (s : string) (n : Z) : unsigned s = Some n -> 0 <= n.
Proof.
  unfold unsigned. destruct s as [|c s]; [discriminate|].
  destruct (digit c); [|discriminate].
  pose proof (digits_nonneg (String c s) 0 (Z.le_refl 0)) as H.
  destruct (digits 0 (String c s)) as [m rest].
  destruct (lstrip rest); [|discriminate]. now intros [= <-].
Qed.

Lemma int_nonneg (s : string) (n : Z) :
  contains "-" s = false -> int s = Ok n -> 0 <= n.
Proof.
  intros Hdash. apply lstrip_no_dash in Hdash. unfold int.
  destruct (lstrip s) as [|c body] eqn:Hbody.
  - cbn. discriminate.
  - rewrite contains_dash_cons in Hdash. apply orb_false_iff in Hdash.
    destruct Hdash as [Hc _].
    assert (match String c body with
            | String "-"%char rest => option_map Z.opp (unsigned rest)
            | String "+"%char rest => unsigned rest
            | _ => unsigned (String c body)
            end = unsigned (String c body) \/
            match String c body with
            | String "-"%char rest => option_map Z.opp (unsigned rest)
            | String "+"%char rest => unsigned rest
            | _ => unsigned (String c body)
            end = unsigned body) as [-> | ->].
    { destruct c as [[] [] [] [] [] [] [] []]; try (left; reflexivity);
        try (right; reflexivity); discriminate Hc. }
    + destruct (unsigned (String c body)) as [m|] eqn:E; [|discriminate].
      intros [= <-]. exact (unsigned_nonneg _ _ E).
    + destruct (unsigned body) as [m|] eqn:E; [|discriminate].
      intros [= <-]. exact (unsigned_nonneg _ _ E).
Qed.

Lemma split_parts_no_dash (s part : string) :
  In part (split "-" s) -> contains "-" part = false.
Proof.
  revert part. induction s as [|c s IH]; intros part.
  - intros [<-|[]]. reflexivity.
  - cbn [split]. destruct (Ascii.eqb c "-") eqn:E.
    + intros [<-|H]; [reflexivity | now apply IH].
    + destruct (split "-" s) as [|first parts] eqn:Hs.
      * intros [<-|[]]. rewrite contains_dash_cons, E. reflexivity.
      * intros [<-|H].
        -- rewrite contains_dash_cons, E. apply IH. now left.
        -- apply IH. now right.
Qed.

(** X2.  No port returned by [expand_range] is negative: a dash always
    separates the bounds, so it is never read as a sign. *)
Theorem expand_range_nonnegative (ports : string) (expanded : list Z) :
  expand_range ports = Ok expanded ->
  forall port, In port expanded -> 0 <= port.
Proof.
  unfold expand_range.
  destruct (split_shape ports) as [[Hno _]|[Hyes (lower & upper & rest & Hs)]].
  - rewrite Hno. destruct (int ports) as [n|e] eqn:Hn; [|discriminate].
    cbn. intros [= <-] port [<-|[]]. exact (int_nonneg _ _ Hno Hn).
  - rewrite Hyes, Hs. cbn.
    destruct (int lower) as [l|e] eqn:Hl; [|discriminate]. cbn.
    destruct (int upper) as [u|e] eqn:Hu; [|discriminate]. cbn.
    intros [= <-] port Hport. apply In_range in Hport.
    assert (0 <= l); [|lia].
    apply (int_nonneg lower); [|exact Hl].
    apply (split_parts_no_dash ports). rewrite Hs. now left.
Qed.

Lemma expand_range_nonnegative_witness :
  expand_range "0-3" = Ok [0; 1; 2; 3] /\ 0 <= 2.
Proof.
  split; [reflexivity|].
  apply (expand_range_nonnegative "0-3" [0; 1; 2; 3]); [reflexivity|].
  simpl. auto.
Defined.

(** ** How [find_violation] ends *)

Lemma find_violation_loop_malformed (exposed_ports : list Z)
  (forbidden_ports : dict string) (remaining : list string) (e : exception) :
  (forall label, In label remaining -> In label (keys forbidden_ports)) ->
  find_violation_loop exposed_ports forbidden_ports remaining = Raise e ->
  exists label spec,
    In (label, spec) forbidden_ports /\ expand_range spec = Raise ValueError.
Proof.
  induction remaining as [|label rest IH]; intros Hsub; cbn; [discriminate|].
  destruct (In_keys_dict_get label forbidden_ports) as [spec Hget];
    [apply Hsub; now left|].
  unfold getitem. rewrite Hget. cbn [rbind].
  destruct (expand_range spec) as [ports|e'] eqn:Hexp; cbn [rbind].
  - destruct (existsb _ ports); [discriminate|].
    apply IH. intros l Hl. apply Hsub. now right.
  - intros _. exists label, spec. split; [now apply dict_get_In|].
    now rewrite (expand_range_raises _ _ Hexp) in Hexp.
Qed.

(** X3.  [find_violation] never fails on a missing key or index: when it
    raises, the exception is [ValueError] and some specification of the
    dict does not expand. *)
Theorem find_violation_failure (exposed_ports : list Z)
  (forbidden_ports : dict string) (e : exception) :
  find_violation exposed_ports forbidden_ports = Raise e ->
  e = ValueError /\
  exists label spec,
    In (label, spec) forbidden_ports /\ expand_range spec = Raise ValueError.
Proof.
  unfold find_violation. intros H. split.
  - revert H. apply find_violation_loop_raises. auto.
  - revert H. apply find_violation_loop_malformed. auto.
Qed.

Lemma find_violation_failure_witness :
  ValueError = ValueError /\
  exists label spec,
    In (label, spec) [("web", "80"); ("bad", "8o")] /\
    expand_range spec = Raise ValueError.
Proof.
  apply (find_violation_failure [22] [("web", "80"); ("bad", "8o")] ValueError).
  reflexivity.
Defined.

Lemma find_violation_loop_ext (exposed_ports : list Z)
  (d d' : dict string) (remaining : list string) :
  (forall label, In label remaining -> dict_get label d = dict_get label d') ->
  find_violation_loop exposed_ports d remaining =
  find_violation_loop exposed_ports d' remaining.
Proof.
  induction remaining as [|label rest IH]; intros Hsame; [reflexivity|].
  cbn. unfold getitem. rewrite (Hsame label) by now left.
  destruct (dict_get label d') as [spec|]; [|reflexivity]. cbn [rbind].
  destruct (expand_range spec) as [ports|e]; [|reflexivity]. cbn [rbind].
  destruct (existsb _ ports); [reflexivity|].
  apply IH. intros l Hl. apply Hsame. now right.
Qed.

(** X4.  The specification visited first decides before the others are
    read: when it holds an exposed port the answer is [True] even if a
    later specification is malformed; when it is malformed the call raises
    [ValueError] even if a later one would match; otherwise the answer is
    that of the rest of the dict. *)
Theorem find_violation_first (exposed_ports : list Z) (label spec : string)
  (rest : dict string) :
  ~ In label (keys rest) ->
  find_violation exposed_ports ((label, spec) :: rest) =
  match expand_range spec with
  | Ok ports =>
      if existsb (fun port => existsb (Z.eqb port) exposed_ports) ports
      then Ok true
      else find_violation exposed_ports rest
  | Raise _ => Raise ValueError
  end.
Proof.
  intros Hfresh. unfold find_violation. cbn [keys map fst find_violation_loop].
  unfold getitem. cbn [dict_get]. rewrite String.eqb_refl. cbn [rbind].
  destruct (expand_range spec) as [ports|e] eqn:Hexp; cbn [rbind].
  - destruct (existsb _ ports); [reflexivity|].
    apply find_violation_loop_ext. intros l Hl. cbn [dict_get].
    destruct (String.eqb_spec l label) as [->|Hne]; [contradiction | reflexivity].
  - now rewrite (expand_range_raises _ _ Hexp).
Qed.

Lemma find_violation_first_witness :
  find_violation [80] [("web", "80"); ("bad", "8o")] = Ok true /\
  find_violation [80] [("bad", "8o"); ("web", "80")] = Raise ValueError.
Proof.
  split.
  - rewrite (find_violation_first [80] "web" "80" [("bad", "8o")]).
    + reflexivity.
    + simpl. intuition discriminate.
  - rewrite (find_violation_first [80] "bad" "8o" [("web", "80")]).
    + reflexivity.
    + simpl. intuition discriminate.
Defined.

(** X5.  With specifications that all expand, exposing more ports or
    forbidding more of them never turns a violation into none. *)
Theorem find_violation_monotone (exposed exposed' : list Z)
  (forbidden forbidden' : dict string) :
  NoDup (keys forbidden) -> NoDup (keys forbidden') ->
  (forall label spec, In (label, spec) forbidden' ->
     exists ports, expand_range spec = Ok ports) ->
  incl exposed exposed' -> incl forbidden forbidden' ->
  find_violation exposed forbidden = Ok true ->
  find_violation exposed' forbidden' = Ok true.
Proof.
  intros Hnd Hnd' Hwf Hports Hspecs Hhit.
  assert (forall d : dict string, NoDup (keys d) -> incl d forbidden' ->
            forall label, In label (keys d) ->
            exists spec ports, dict_get label d = Some spec /\
                               expand_range spec = Ok ports) as Htotal.
  { intros d Hd Hincl label Hl.
    destruct (In_keys_dict_get _ _ Hl) as [spec Hget].
    destruct (Hwf label spec) as [ports Hexp];
      [apply Hincl; now apply dict_get_In | eauto]. }
  destruct (find_violation_loop_total exposed forbidden (keys forbidden)
              (Htotal forbidden Hnd Hspecs)) as [b [Hb Hiff]].
  destruct (find_violation_loop_total exposed' forbidden' (keys forbidden')
              (Htotal forbidden' Hnd' (fun x H => H))) as [b' [Hb' Hiff']].
  unfold find_violation in *. rewrite Hb in Hhit. injection Hhit as ->.
  rewrite Hb'. f_equal. apply Hiff'.
  destruct Hiff as [Hfound _].
  destruct (Hfound eq_refl) as (l & s & ps & p & _ & Hg & He & Hp & Hx).
  exists l, s, ps, p.
  assert (In (l, s) forbidden') as Hin
    by (apply Hspecs; now apply dict_get_In).
  repeat split; auto.
  - unfold keys. apply in_map_iff. now exists (l, s).
  - now apply In_dict_get.
Qed.

Lemma find_violation_monotone_witness :
  find_violation [22; 80] [("web", "80"); ("low", "0-10")] = Ok true.
Proof.
  apply (find_violation_monotone [80] [22; 80]
           [("web", "80")] [("web", "80"); ("low", "0-10")]).
  - repeat constructor; simpl; intuition.
  - repeat constructor; simpl; intuition discriminate.
  - intros label spec [[= <- <-]|[[= <- <-]|[]]]; eexists; reflexivity.
  - intros p [<-|[]]; simpl; auto.
  - intros x [<-|[]]; simpl; auto.
  - reflexivity.
Defined.

(** ** Exposed ports of several rules *)

Lemma exposed_fold_app (permissions : list permission) (acc : list Z) :
  fold_left (fun exposed_ports permission =>
    fold_left (fun exposed_ports ip =>
      if contains "0.0.0.0/0" (CidrIp ip)
      then exposed_ports ++ range (FromPort permission) (ToPort permission + 1)
      else exposed_ports)
      (IpRanges permission) exposed_ports) permissions acc =
  acc ++ find_exposed_ports (Some permissions).
Proof.
  unfold find_exposed_ports. revert acc.
  induction permissions as [|p permissions IH]; intros acc; cbn [fold_left].
  - now rewrite app_nil_r.
  - assert (forall ranges start,
              fold_left (fun exposed_ports ip =>
                if contains "0.0.0.0/0" (CidrIp ip)
                then exposed_ports ++ range (FromPort p) (ToPort p + 1)
                else exposed_ports) ranges start =
              start ++
              fold_left (fun exposed_ports ip =>
                if contains "0.0.0.0/0" (CidrIp ip)
                then exposed_ports ++ range (FromPort p) (ToPort p + 1)
                else exposed_ports) ranges []) as Hinner.
    { induction ranges as [|ip ranges IHr]; intros start; cbn [fold_left].
      - now rewrite app_nil_r.
      - destruct (contains "0.0.0.0/0" (CidrIp ip)).
        + rewrite IHr, (IHr ([] ++ _)). cbn [app]. now rewrite app_assoc.
        + apply IHr. }
    rewrite IH, Hinner. rewrite (IH (fold_left _ (IpRanges p) [])).
    now rewrite app_assoc.
Qed.

(** X6.  The exposed ports of two lists of rules put end to end are the
    exposed ports of the first followed by those of the second; a rule added
    to a group never hides a port that was exposed. *)
Theorem find_exposed_ports_app (first second : list permission) :
  find_exposed_ports (Some (first ++ second)) =
  find_exposed_ports (Some first) ++ find_exposed_ports (Some second).
Proof.
  unfold find_exposed_ports at 1. rewrite fold_left_app.
  rewrite exposed_fold_app. reflexivity.
Qed.

(** ** The lookups of the resolver and of the evaluator *)

(** X7.  Resolving a security group never fails; it asks once for the
    instances of the group and then once for the groups of every instance
    listed, in the order of the listing (an instance listed twice is asked
    twice), and nothing else.  The scope holds every instance once, each
    with a list, and the set of groups holds identifiers only, each once. *)
Theorem scope_lookups (ec2 : directory) (triggerSecGroup : string) :
  calls (determineEvaluationScopeFromTriggerSecGroup ec2 triggerSecGroup) =
  DescribeInstances triggerSecGroup ::
  map InstanceSecurityGroups (attached_instances ec2 triggerSecGroup) /\
  exists sc,
    outcome (determineEvaluationScopeFromTriggerSecGroup ec2 triggerSecGroup)
    = Ok sc /\
    NoDup (keys (instancesToEvaluate sc)) /\
    (forall i c, In (i, c) (instancesToEvaluate sc) ->
       c = PyList (group_ids ec2 i)) /\
    NoDup (items (secGroupsToCheck sc)) /\
    identifiers (items (secGroupsToCheck sc)).
Proof.
  rewrite determineEvaluationScope_run. split; [reflexivity|].
  eexists. split; [reflexivity|].
  cbn [instancesToEvaluate secGroupsToCheck items].
  set (ids := attached_instances ec2 triggerSecGroup).
  pose proof (scope_steps_NoDup_keys ec2 ids ([], []) (NoDup_nil _)) as Hnd.
  split; [exact Hnd|]. split; [|split].
  - intros i c Hin.
    assert (In i ids) as Hi.
    { assert (In i (keys (fst (fold_left (scope_step ec2) ids ([], [])))))
        as Hk by (unfold keys; apply in_map_iff; now exists (i, c)).
      apply scope_steps_keys in Hk. destruct Hk as [[]|Hk]. exact Hk. }
    pose proof (scope_steps_groups ec2 ids ([], []) i Hi) as Hget.
    rewrite (In_dict_get _ _ _ Hnd Hin) in Hget. now injection Hget.
  - apply scope_steps_NoDup. constructor.
  - apply scope_steps_identifiers.
Qed.

(** One round of [getViolationGroups]: one request, then the verdict. *)
Lemma violation_round (ec2 : directory) (forbiddenPorts : dict string)
  (violations : list value) (secGroup : value) :
  (permissions <- securityGroupIpPermissions ec2 secGroup ;;
   let exposed_ports := find_exposed_ports permissions in
   violated <- lift (find_violation exposed_ports forbiddenPorts) ;;
   ret (if violated : bool then violations ++ [secGroup] else violations)) =
  ([SecurityGroupIpPermissions secGroup],
   v <- group_violates ec2 forbiddenPorts secGroup ;;;
   Ok (if v : bool then violations ++ [secGroup] else violations)).
Proof.
  unfold securityGroupIpPermissions, request, group_violates, lift.
  destruct secGroup as [id|g]; [|reflexivity].
  cbn. destruct (find_violation _ _) as [[]|e]; reflexivity.
Qed.

Lemma violation_rounds (ec2 : directory) (forbiddenPorts : dict string)
  (l acc : list value) :
  let m :=
    foldM (fun violations secGroup =>
      permissions <- securityGroupIpPermissions ec2 secGroup ;;
      let exposed_ports := find_exposed_ports permissions in
      violated <- lift (find_violation exposed_ports forbiddenPorts) ;;
      ret (if violated : bool then violations ++ [secGroup] else violations))
      l acc in
  (exists rest, map SecurityGroupIpPermissions l = calls m ++ rest) /\
  (forall vs, outcome m = Ok vs ->
     calls m = map SecurityGroupIpPermissions l /\
     vs = acc ++ filter (fun g => holds (group_violates ec2 forbiddenPorts g)) l /\
     forall g, In g l -> exists b, group_violates ec2 forbiddenPorts g = Ok b).
Proof.
  revert acc. induction l as [|g l IH]; intros acc; cbn zeta.
  - split; [exists []; reflexivity|]. intros vs [= <-].
    repeat split; [now rewrite app_nil_r | intros g []].
  - cbn [foldM map filter]. rewrite violation_round.
    destruct (group_violates ec2 forbiddenPorts g) as [b|e] eqn:Hg; cbn [rbind].
    + rewrite bind_ok. cbn [calls outcome fst snd app].
      destruct (IH (if b then acc ++ [g] else acc)) as [[rest Hrest] Hok].
      cbn zeta in Hrest, Hok. split.
      * exists rest. cbn [calls] in Hrest. now rewrite Hrest.
      * intros vs Hvs. destruct (Hok vs Hvs) as (Hcalls & Hfilter & Hall).
        cbn [calls] in Hcalls. rewrite Hcalls. split; [reflexivity|]. split.
        -- rewrite Hfilter. cbn [holds].
           destruct b; [now rewrite <- app_assoc | reflexivity].
        -- intros h [<-|Hh]; eauto.
    + cbn. split; [exists (map SecurityGroupIpPermissions l); reflexivity|].
      discriminate.
Qed.


Lemma holds_group_violates (ec2 : directory) (forbiddenPorts : dict string)
  (v : value) :
  holds (group_violates ec2 forbiddenPorts v) = true <->
  exists id,
    v = Str id /\
    find_violation (find_exposed_ports (ip_permissions ec2 id)) forbiddenPorts
    = Ok true.
Proof.
  unfold group_violates. destruct v as [id|g]; cbn.
  - split.
    + intros H. exists id. split; [reflexivity|].
      destruct (find_violation _ _) as [[]|]; [reflexivity | discriminate..].
    + intros [id' [[= <-] ->]]. reflexivity.
  - split; [discriminate | intros [id [[=] _]]].
Qed.

(** X8.  [getViolationGroups] asks for the rules of the groups one by one,
    in the order of the collection, and stops at the first failure.  When it
    returns, every group was asked for, and the result holds exactly the
    groups, in that order, on whose exposed ports [find_violation] answers
    [True]. *)
Theorem violation_groups_fetched (ec2 : directory) (secGroupSet : collection)
  (forbiddenPorts : dict string) :
  (exists rest,
     map SecurityGroupIpPermissions (items secGroupSet) =
     calls (getViolationGroups ec2 secGroupSet forbiddenPorts) ++ rest) /\
  (forall violations,
     outcome (getViolationGroups ec2 secGroupSet forbiddenPorts) = Ok violations ->
     calls (getViolationGroups ec2 secGroupSet forbiddenPorts) =
     map SecurityGroupIpPermissions (items secGroupSet) /\
     exists keep,
       violations = filter keep (items secGroupSet) /\
       forall v, In v (items secGroupSet) ->
         (keep v = true <->
          exists id,
            v = Str id /\
            find_violation (find_exposed_ports (ip_permissions ec2 id))
              forbiddenPorts = Ok true)).
Proof.
  unfold getViolationGroups.
  destruct (violation_rounds ec2 forbiddenPorts (items secGroupSet) [])
    as [Hprefix Hok].
  cbn zeta in Hprefix, Hok. split; [exact Hprefix|].
  intros violations Hrun. destruct (Hok violations Hrun) as (Hcalls & Hvs & _).
  split; [exact Hcalls|].
  exists (fun g => holds (group_violates ec2 forbiddenPorts g)).
  split; [exact Hvs|]. intros v _. apply holds_group_violates.
Qed.


(** ** What a security-group trigger reports *)

(** The rows returned for a security-group trigger. *)
Lemma rows_of_security_group (ec2 : directory) (item : configuration_item)
  (rule_parameters : dict string) (triggerSecGroupId : string)
  (rows : dict (list value)) :
  resourceType item = "AWS::EC2::SecurityGroup" ->
  dict_get "groupId" (configuration item) = Some triggerSecGroupId ->
  outcome (evaluate_compliance ec2 item rule_parameters) = Ok (Some rows) ->
  NoDup (keys rows) /\
  (forall i, In i (keys rows) <->
             In i (attached_instances ec2 triggerSecGroupId)) /\
  (forall i groups, In (i, groups) rows ->
     NoDup groups /\
     forall v, In v groups <->
       exists g,
         In g (security_groups ec2 i) /\ v = Str (GroupId g) /\
         find_violation
           (find_exposed_ports (ip_permissions ec2 (GroupId g)))
           rule_parameters = Ok true).
Proof.
  intros Htype Hid.
  rewrite outcome_evaluate_compliance, outcome_trigger_scope, Htype.
  cbn [String.eqb Ascii.eqb Bool.eqb andb]. unfold getitem at 1.
  rewrite Hid. cbn [rbind secGroupsToCheck instancesToEvaluate].
  set (ids := attached_instances ec2 triggerSecGroupId).
  set (found := fold_left (scope_step ec2) ids ([], [])).
  pose proof (scope_steps_NoDup_keys ec2 ids ([], []) (NoDup_nil _)) as Hnd.
  fold found in Hnd.
  assert (forall i c, In (i, c) (fst found) ->
            In i ids /\ c = PyList (group_ids ec2 i)) as Hentries.
  { intros i c Hin.
    assert (In i ids) as Hi.
    { assert (In i (keys (fst found))) as Hk
        by (unfold keys; apply in_map_iff; now exists (i, c)).
      apply scope_steps_keys in Hk. destruct Hk as [[]|Hk]. exact Hk. }
    split; [exact Hi|].
    pose proof (scope_steps_groups ec2 ids ([], []) i Hi) as Hget.
    fold found in Hget.
    rewrite (In_dict_get _ _ _ Hnd Hin) in Hget. now injection Hget. }
  destruct (violation_rounds ec2 rule_parameters (snd found) []) as [_ Hok].
  cbn zeta in Hok.
  destruct (outcome (getViolationGroups ec2 (PySet (snd found)) rule_parameters))
    as [vs|e] eqn:Hrun; cbn [rbind]; [|discriminate].
  destruct (Hok vs Hrun) as (_ & Hvs & _). cbn [app] in Hvs.
  rewrite violation_instances_alike; [|exact Hnd|].
  2:{ intros [i c] Hin. destruct (Hentries i c Hin) as [_ ->]. cbn. eauto. }
  cbn [rbind]. intros [= <-]. rewrite keys_violation_rows.
  split; [exact Hnd|]. split.
  - intros i. unfold found. rewrite scope_steps_keys. cbn. intuition.
  - intros i groups Hin. apply in_map_iff in Hin.
    destruct Hin as [[k c] [Hrow Hin]]. unfold violation_row in Hrow.
    cbn [fst snd] in Hrow. injection Hrow as -> <-.
    destruct (Hentries i c Hin) as [Hi ->]. cbn [items]. split.
    + apply NoDup_filter. rewrite Hvs. apply NoDup_filter.
      apply scope_steps_NoDup. constructor.
    + intros v. rewrite filter_In, mem_In, Hvs, filter_In.
      rewrite holds_group_violates. unfold group_ids. rewrite in_map_iff.
      split.
      * intros [[_ (id & -> & Hhit)] (g & [= <-] & Hg)]. eauto.
      * intros (g & Hg & -> & Hhit). split; [split|]; eauto.
        apply scope_steps_set. right. exists i. split; [exact Hi|].
        unfold group_ids. apply in_map_iff. eauto.
Qed.

(** X9.  When [evaluate_compliance] returns for a security-group trigger,
    its mapping has one row for every instance listed for the group and for
    no other, and the row of an instance lists, each once, exactly those of
    its attached groups on whose exposed ports [find_violation] answers
    [True]. *)
Theorem security_group_rows (ec2 : directory) (item : configuration_item)
  (rule_parameters : dict string) (triggerSecGroupId : string)
  (rows : dict (list value)) :
  resourceType item = "AWS::EC2::SecurityGroup" ->
  dict_get "groupId" (configuration item) = Some triggerSecGroupId ->
  outcome (evaluate_compliance ec2 item rule_parameters) = Ok (Some rows) ->
  NoDup (keys rows) /\
  (forall i, In i (keys rows) <->
             In i (attached_instances ec2 triggerSecGroupId)) /\
  (forall i groups, In (i, groups) rows ->
     NoDup groups /\
     forall v, In v groups <->
       exists g,
         In g (security_groups ec2 i) /\ v = Str (GroupId g) /\
         find_violation
           (find_exposed_ports (ip_permissions ec2 (GroupId g)))
           rule_parameters = Ok true).
Proof. apply rows_of_security_group. Qed.

Lemma security_group_rows_witness :
  NoDup (keys [("i-2", []); ("i-3", [Str "sg-3"])]) /\
  (forall i, In i (keys [("i-2", @nil value); ("i-3", [Str "sg-3"])]) <->
             In i (attached_instances two_instances "sg-2")) /\
  (forall i groups, In (i, groups) [("i-2", []); ("i-3", [Str "sg-3"])] ->
     NoDup groups /\
     forall v, In v groups <->
       exists g,
         In g (security_groups two_instances i) /\ v = Str (GroupId g) /\
         find_violation
           (find_exposed_ports (ip_permissions two_instances (GroupId g)))
           [("web", "80")] = Ok true).
Proof.
  apply (security_group_rows two_instances
           (configurationItem
              (invokingEvent
                 (invocation "AWS::EC2::SecurityGroup" "groupId" "sg-2")))
           [("web", "80")] "sg-2"); reflexivity.
Defined.

(** ** Missing keys *)

(** X10.  A configuration item of a supported type that lacks the
    identifier of its resource makes the handler raise [KeyError] before
    any call: nothing is looked up, printed or submitted. *)
Theorem missing_identifier (ec2 : directory) (event : event) :
  (resourceType (configurationItem (invokingEvent event))
   = "AWS::EC2::SecurityGroup" /\
   dict_get "groupId" (configuration (configurationItem (invokingEvent event)))
   = None) \/
  (resourceType (configurationItem (invokingEvent event))
   = "AWS::EC2::Instance" /\
   dict_get "instanceId" (configuration (configurationItem (invokingEvent event)))
   = None) ->
  lambda_handler ec2 event = ([], Raise KeyError).
Proof.
  unfold lambda_handler, evaluate_compliance, trigger_scope, getitem.
  intros [[-> ->]|[-> ->]]; reflexivity.
Qed.

Lemma missing_identifier_witness :
  lambda_handler two_instances
    (invocation "AWS::EC2::SecurityGroup" "instanceId" "i-1")
  = ([], Raise KeyError).
Proof.
  apply missing_identifier. left. split; reflexivity.
Defined.

(** ** The handler around the evaluation *)

Lemma same_snapshot_refl (ec2 : directory) : same_snapshot ec2 ec2.
Proof. repeat split; intros; reflexivity. Qed.

(** What [evaluate_compliance] can return: [False], or a dict without
    duplicate keys whose lists hold group identifiers. *)
Lemma evaluations_reachable (ec2 : directory) (item : configuration_item)
  (rule_parameters : dict string) (evaluations : option (dict (list value))) :
  outcome (evaluate_compliance ec2 item rule_parameters) = Ok evaluations ->
  evaluations = None \/
  exists rows,
    evaluations = Some rows /\ NoDup (keys rows) /\
    forall k groups, In (k, groups) rows -> identifiers groups.
Proof.
  intros Hrun.
  destruct (evaluations_alike ec2 ec2 item rule_parameters
              (same_snapshot_refl ec2))
    as [(e & He & _)|[[Hnone _]|(rows & rows' & Hrows & _ & Hnd & _ & Halike)]].
  - congruence.
  - left. congruence.
  - right. exists rows. split; [congruence|]. split; [exact Hnd|].
    apply (rows_identifiers _ _ Halike).
Qed.

Lemma reporter_total (ec2 : directory) (item : configuration_item)
  (rule_parameters : dict string) (evaluations : option (dict (list value))) :
  outcome (evaluate_compliance ec2 item rule_parameters) = Ok evaluations ->
  output_evaluation item evaluations =
  Ok match evaluations with
     | Some ((_ :: _) as rows) => map (record_of item) rows
     | _ => [Notice "NOT_APPLICABLE"
               ("The rule doesn't apply to resources of type " ++
                resourceType item ++ ".")%string]
     end.
Proof.
  intros Hrun.
  destruct (evaluations_reachable _ _ _ _ Hrun)
    as [->|(rows & -> & Hnd & Hids)]; [reflexivity|].
  destruct rows as [|row rows]; [reflexivity|].
  apply output_evaluation_rows; [discriminate | exact Hnd | exact Hids].
Qed.





(** X13.  A list of records submitted by the handler is either the single
    notice that the rule does not apply, or a list of records of instances,
    each one COMPLIANT with the fixed annotation or NON_COMPLIANT with an
    annotation that starts with "Instance has non compliant groups ", all
    stamped with the capture time of the configuration item; the two kinds
    are never mixed. *)
Theorem submitted_records_shape (ec2 : directory) (event : event)
  (records : list evaluation) :
  In records (submitted (lambda_handler ec2 event)) ->
  records =
  [Notice "NOT_APPLICABLE"
     ("The rule doesn't apply to resources of type " ++
      resourceType (configurationItem (invokingEvent event)) ++ ".")%string] \/
  Forall (fun record =>
            exists instanceId,
              record =
              Evaluation "AWS::EC2::Instance" instanceId "COMPLIANT"
                "This resource is compliant with the rule."
                (configurationItemCaptureTime
                   (configurationItem (invokingEvent event))) \/
              exists listed,
                record =
                Evaluation "AWS::EC2::Instance" instanceId "NON_COMPLIANT"
                  ("Instance has non compliant groups " ++ listed)%string
                  (configurationItemCaptureTime
                     (configurationItem (invokingEvent event))))
         records.
Proof.
  rewrite lambda_handler_submits.
  destruct (outcome (evaluate_compliance _ _ _)) as [evaluations|e] eqn:Hrun;
    [|intros []].
  rewrite (reporter_total _ _ _ _ Hrun).
  intros [<-|[]]. destruct evaluations as [[|row rows]|]; auto.
  right. apply Forall_forall. intros record Hin.
  apply in_map_iff in Hin. destruct Hin as [[i groups] [<- _]].
  exists i. unfold record_of. cbn [fst snd].
  destruct (0 <? length groups)%nat; eauto.
Qed.

Lemma submitted_records_shape_witness :
  [Evaluation "AWS::EC2::Instance" "i-1" "NON_COMPLIANT"
     "Instance has non compliant groups sg-1" "2016-06-13T10:00:00.000Z"] =
  [Notice "NOT_APPLICABLE"
     "The rule doesn't apply to resources of type AWS::EC2::SecurityGroup."] \/
  Forall (fun record =>
            exists instanceId,
              record =
              Evaluation "AWS::EC2::Instance" instanceId "COMPLIANT"
                "This resource is compliant with the rule."
                "2016-06-13T10:00:00.000Z" \/
              exists listed,
                record =
                Evaluation "AWS::EC2::Instance" instanceId "NON_COMPLIANT"
                  ("Instance has non compliant groups " ++ listed)%string
                  "2016-06-13T10:00:00.000Z")
         [Evaluation "AWS::EC2::Instance" "i-1" "NON_COMPLIANT"
            "Instance has non compliant groups sg-1" "2016-06-13T10:00:00.000Z"].
Proof.
  apply (submitted_records_shape two_instances
           (invocation "AWS::EC2::SecurityGroup" "groupId" "sg-1")).
  simpl. left. reflexivity.
Defined.

(** ** The verdict on an instance *)

(** X14.  When the handler succeeds on a security-group trigger, every
    instance listed for the group gets exactly one record in the submitted
    list, and that record is NON_COMPLIANT if and only if [find_violation]
    answers [True] on the exposed ports of one of the groups attached to the
    instance, whichever group triggered the evaluation. *)
Theorem verdict_of_instance (ec2 : directory) (event : event)
  (triggerSecGroupId instanceId : string) :
  resourceType (configurationItem (invokingEvent event))
  = "AWS::EC2::SecurityGroup" ->
  dict_get "groupId" (configuration (configurationItem (invokingEvent event)))
  = Some triggerSecGroupId ->
  outcome (lambda_handler ec2 event) = Ok tt ->
  In instanceId (attached_instances ec2 triggerSecGroupId) ->
  exists records record,
    submitted (lambda_handler ec2 event) = [records] /\
    filter (about instanceId) records = [record] /\
    (status record = "NON_COMPLIANT" \/ status record = "COMPLIANT") /\
    (status record = "NON_COMPLIANT" <->
     exists g,
       In g (security_groups ec2 instanceId) /\
       find_violation
         (find_exposed_ports (ip_permissions ec2 (GroupId g)))
         (ruleParameters event) = Ok true).
Proof.
  intros Htype Hid Hok Hlisted.
  rewrite lambda_handler_outcome in Hok. rewrite lambda_handler_submits.
  destruct (outcome (evaluate_compliance _ _ _)) as [evaluations|e] eqn:Hrun;
    [|discriminate].
  clear Hok. rewrite (reporter_total _ _ _ _ Hrun).
  destruct (evaluations_reachable _ _ _ _ Hrun)
    as [->|(rows & -> & Hnd & Hids)].
  - rewrite outcome_evaluate_compliance, outcome_trigger_scope, Htype in Hrun.
    cbn [String.eqb Ascii.eqb Bool.eqb andb] in Hrun. unfold getitem in Hrun.
    rewrite Hid in Hrun. cbn [rbind] in Hrun.
    destruct (outcome (getViolationGroups _ _ _)); [|discriminate].
    cbn [rbind] in Hrun. destruct (violation_instances _ _); discriminate.
  - destruct (rows_of_security_group _ _ _ _ _ Htype Hid Hrun)
      as (_ & Hkeys & Hrows).
    apply Hkeys in Hlisted. unfold keys in Hlisted.
    apply in_map_iff in Hlisted. destruct Hlisted as [[i groups] [Hi Hin]].
    cbn in Hi. subst i.
    destruct rows as [|row rows]; [destruct Hin|].
    eexists. eexists. split; [reflexivity|]. split.
    + exact (one_record_about _ _ instanceId groups Hnd Hin).
    + destruct (Hrows _ _ Hin) as [_ Hgroups].
      unfold record_of. cbn [fst snd]. destruct groups as [|v groups].
      * cbn. split; [now right|]. split; [discriminate|].
        intros (g & Hg & Hhit).
        destruct (proj2 (Hgroups (Str (GroupId g)))) ; eauto.
      * cbn. split; [now left|]. split; [|reflexivity]. intros _.
        destruct (proj1 (Hgroups v) (or_introl eq_refl)) as (g & Hg & _ & Hhit).
        eauto.
Qed.

Lemma verdict_of_instance_witness :
  exists records record,
    submitted (lambda_handler two_instances
                 (invocation "AWS::EC2::SecurityGroup" "groupId" "sg-2"))
    = [records] /\
    filter (about "i-3") records = [record] /\
    (status record = "NON_COMPLIANT" \/ status record = "COMPLIANT") /\
    (status record = "NON_COMPLIANT" <->
     exists g,
       In g (security_groups two_instances "i-3") /\
       find_violation
         (find_exposed_ports (ip_permissions two_instances (GroupId g)))
         [("web", "80")] = Ok true).
Proof.
  apply (verdict_of_instance two_instances
           (invocation "AWS::EC2::SecurityGroup" "groupId" "sg-2") "sg-2" "i-3").
  - reflexivity.
  - reflexivity.
  - reflexivity.
  - simpl. auto.
Defined.

(** ** All the calls of a successful run *)

(** X15.  When the handler succeeds on a security-group trigger, its calls
    are, in this order: one request for the instances of the group, one
    request per listed instance for its groups, one request per distinct
    group of these instances for its rules, the print and the submission.
    Every group is asked for once, however many instances share it. *)
Theorem calls_of_security_group_run (ec2 : directory) (event : event)
  (triggerSecGroupId : string) :
  resourceType (configurationItem (invokingEvent event))
  = "AWS::EC2::SecurityGroup" ->
  dict_get "groupId" (configuration (configurationItem (invokingEvent event)))
  = Some triggerSecGroupId ->
  outcome (lambda_handler ec2 event) = Ok tt ->
  exists groups records,
    NoDup groups /\
    (forall v, In v groups <->
       exists i, In i (attached_instances ec2 triggerSecGroupId) /\
                 In v (group_ids ec2 i)) /\
    calls (lambda_handler ec2 event) =
    DescribeInstances triggerSecGroupId ::
    map InstanceSecurityGroups (attached_instances ec2 triggerSecGroupId) ++
    map SecurityGroupIpPermissions groups ++
    [PrintJson records; PutEvaluations records (token_of event)].
Proof.
  intros Htype Hid Hok.
  set (ids := attached_instances ec2 triggerSecGroupId).
  set (found := fold_left (scope_step ec2) ids ([], [])).
  exists (snd found).
  assert (trigger_scope ec2 (configurationItem (invokingEvent event)) =
          (DescribeInstances triggerSecGroupId :: map InstanceSecurityGroups ids,
           Ok (Some {| instancesToEvaluate := fst found;
                       secGroupsToCheck := PySet (snd found) |}))) as Hscope.
  { unfold trigger_scope, getitem, lift. rewrite Htype, Hid.
    cbn [String.eqb Ascii.eqb Bool.eqb andb].
    rewrite bind_ok, determineEvaluationScope_run, bind_ok.
    cbn [calls outcome fst snd ret app]. now rewrite app_nil_r. }
  rewrite lambda_handler_outcome in Hok. rewrite lambda_handler_run.
  unfold evaluate_compliance in *. rewrite Hscope, bind_ok in *.
  cbn [secGroupsToCheck instancesToEvaluate outcome calls fst snd] in *.
  destruct (violation_rounds ec2 (ruleParameters event) (snd found) [])
    as [_ Hrounds]. cbn zeta in Hrounds.
  change (foldM _ (snd found) [])
    with (getViolationGroups ec2 (PySet (snd found)) (ruleParameters event))
    in Hrounds.
  destruct (getViolationGroups ec2 (PySet (snd found)) (ruleParameters event))
    as [log [vs|e]]; cbn [outcome calls fst snd rbind] in *; [|discriminate].
  destruct (Hrounds vs eq_refl) as (-> & _ & _).
  unfold lift in *. rewrite bind_ok in *.
  destruct (violation_instances (fst found) vs) as [vi|e];
    cbn [bind outcome calls fst snd rbind ret app] in *; [|discriminate].
  destruct (output_evaluation _ (Some vi)) as [records|e];
    cbn [rbind] in Hok; [|discriminate].
  exists records. split; [apply scope_steps_NoDup; constructor|]. split.
  - intros v. unfold found. rewrite scope_steps_set. cbn. intuition.
  - cbn [calls fst]. rewrite !app_nil_r, <- !app_assoc. reflexivity.
Qed.

Lemma calls_of_security_group_run_witness :
  exists groups records,
    NoDup groups /\
    (forall v, In v groups <->
       exists i, In i (attached_instances two_instances "sg-2") /\
                 In v (group_ids two_instances i)) /\
    calls (lambda_handler two_instances
             (invocation "AWS::EC2::SecurityGroup" "groupId" "sg-2")) =
    DescribeInstances "sg-2" ::
    map InstanceSecurityGroups (attached_instances two_instances "sg-2") ++
    map SecurityGroupIpPermissions groups ++
    [PrintJson records; PutEvaluations records "token"].
Proof.
  apply (calls_of_security_group_run two_instances
           (invocation "AWS::EC2::SecurityGroup" "groupId" "sg-2") "sg-2");
    reflexivity.
Defined.

(** ** Verdicts of [find_violation] *)

Lemma find_violation_loop_same_ports (exposed exposed' : list Z)
  (forbidden_ports : dict string) (remaining : list string) :
  (forall port, In port exposed <-> In port exposed') ->
  find_violation_loop exposed forbidden_ports remaining =
  find_violation_loop exposed' forbidden_ports remaining.
Proof.
  intros Hsame. induction remaining as [|label rest IH]; [reflexivity|].
  cbn. destruct (getitem forbidden_ports label) as [spec|e]; [|reflexivity].
  cbn [rbind]. destruct (expand_range spec) as [ports|e]; [|reflexivity].
  cbn [rbind].
  assert (existsb (fun port => existsb (Z.eqb port) exposed) ports =
          existsb (fun port => existsb (Z.eqb port) exposed') ports) as ->.
  { destruct (existsb (fun port => existsb (Z.eqb port) exposed') ports) eqn:E.
    - apply port_exposed_iff. apply port_exposed_iff in E.
      destruct E as [p [Hp Hx]]. exists p. split; [exact Hp | now apply Hsame].
    - destruct (existsb (fun port => existsb (Z.eqb port) exposed) ports) eqn:E';
        [|reflexivity].
      apply port_exposed_iff in E'. destruct E' as [p [Hp Hx]].
      assert (existsb (fun port => existsb (Z.eqb port) exposed') ports = true)
        as Habs by (apply port_exposed_iff; exists p; split;
                    [exact Hp | now apply Hsame]).
      congruence. }
  now rewrite IH.
Qed.

(** X16.  [find_violation] looks at the exposed ports as a set: two lists
    with the same elements, in any order and with any repetition, get the
    same answer or the same failure. *)
Theorem find_violation_same_ports (exposed exposed' : list Z)
  (forbidden_ports : dict string) :
  (forall port, In port exposed <-> In port exposed') ->
  find_violation exposed forbidden_ports =
  find_violation exposed' forbidden_ports.
Proof. intros Hsame. now apply find_violation_loop_same_ports. Qed.

Lemma find_violation_same_ports_witness :
  find_violation [80; 22; 80] [("web", "80"); ("bad", "8o")] =
  find_violation [22; 80] [("web", "80"); ("bad", "8o")].
Proof.
  apply find_violation_same_ports. intros port. simpl. intuition.
Defined.

Lemma find_violation_loop_false (exposed_ports : list Z)
  (forbidden_ports : dict string) (remaining : list string) :
  find_violation_loop exposed_ports forbidden_ports remaining = Ok false ->
  forall label, In label remaining ->
  exists spec ports,
    dict_get label forbidden_ports = Some spec /\
    expand_range spec = Ok ports /\
    forall port, In port ports -> ~ In port exposed_ports.
Proof.
  induction remaining as [|label rest IH]; [intros _ l []|].
  cbn. unfold getitem.
  destruct (dict_get label forbidden_ports) as [spec|] eqn:Hget;
    [|discriminate]. cbn [rbind].
  destruct (expand_range spec) as [ports|e] eqn:Hexp; [|discriminate].
  cbn [rbind].
  destruct (existsb _ ports) eqn:Hhit; [discriminate|].
  intros Hrest l [<-|Hl]; [|now apply IH].
  exists spec, ports. repeat split; auto. intros port Hp Hx.
  assert (existsb (fun port => existsb (Z.eqb port) exposed_ports) ports = true)
    as Habs by (apply port_exposed_iff; eauto).
  congruence.
Qed.

(** X17.  The answer [False] is given only after every specification of
    the dict was expanded and found to hold no exposed port: a malformed
    specification is never passed over in silence. *)
Theorem find_violation_false (exposed_ports : list Z)
  (forbidden_ports : dict string) :
  NoDup (keys forbidden_ports) ->
  find_violation exposed_ports forbidden_ports = Ok false ->
  forall label spec,
    In (label, spec) forbidden_ports ->
    exists ports,
      expand_range spec = Ok ports /\
      forall port, In port ports -> ~ In port exposed_ports.
Proof.
  intros Hnd Hfalse label spec Hin.
  destruct (find_violation_loop_false _ _ _ Hfalse label)
    as (spec' & ports & Hget & Hexp & Hnone).
  - unfold keys. apply in_map_iff. now exists (label, spec).
  - rewrite (In_dict_get _ _ _ Hnd Hin) in Hget. injection Hget as <-. eauto.
Qed.

Lemma find_violation_false_witness :
  exists ports,
    expand_range "0-10" = Ok ports /\
    forall port, In port ports -> ~ In port [22; 443].
Proof.
  apply (find_violation_false [22; 443] [("web", "80"); ("low", "0-10")]
           ltac:(repeat constructor; simpl; intuition discriminate)
           eq_refl "low" "0-10").
  simpl. auto.
Defined.
